(* ===== verification/_CoqProject ===== *)
-Q . S2P
Prelude.v
JsValue.v
Markers.v
Async.v
Controller.v
Spec.v
NumberFormat.v
Renderer.v
Scenarios.v
