(* ===== verification/Prelude.v ===== *)
(** * Verification of the leaflet-map viewer ([src/src/App.jsx])

    ** The program

    [App.jsx] is a single React component tree over a Leaflet map.  A click on
    the map reaches [ClickHandle] (lines 14-22), which forwards the clicked
    coordinate to [addNewMarker] (lines 45-76).  [addNewMarker] is an [async]
    function: it reads the clock ([Date.now()]) for an identifier, appends a
    placeholder marker to the [markers] state cell through a functional
    [setMarkers] updater, starts a reverse-geocoding [fetch], and, when the
    response and its JSON body have settled, maps over the collection to
    replace the text of the marker whose [id] equals the captured identifier,
    either by [data.display_name] or, from the [catch] block, by a fixed
    failure text.  [App] (lines 39-99) renders one [AutoOpenMarker] per
    marker, keyed by its index, whose mount effect opens the popup
    (lines 24-37).

    ** The files, in dependency order

    - [Prelude] (this file): the scope [js_scope], the tactics and hint
      databases of the development, and the lemmas on lists that every
      component shares: [update_where], the shape of
      [current.map(m => test(m) ? change(m) : m)] used by both reconciliation
      updaters, and [apply_all], the left-to-right application of queued
      updater functions that React performs when it processes a state queue.
    - [JsValue]: the JavaScript values the program handles ([value], with
      [undefined], [null], booleans, IEEE-754 numbers as primitive floats,
      strings, arrays and objects), the thrown values [exn], the outcome of a
      promise [settled], and property read [get_property], which throws a
      [TypeError] on [undefined] and [null] as [data.display_name] does.
    - [Markers]: the modules [LatLng] and [Marker] (an optional [id], [lat],
      [lng], [text]), the constants of the source ([initialPosition], the
      initial [markers] array, the three label texts), the three updater
      functions passed to [setMarkers], and their algebra: what each does to
      lengths, identifiers, positions and texts.
    - [Async]: a small free monad [prog] over an event family, with [Ret],
      [Throw] and [Vis]; [bind], [try_catch] and [await] give [async]
      functions their meaning.  [addNewMarker] has no loop, so its program
      tree is finite and [prog] is an ordinary inductive type; everything
      computes.
    - [Controller]: the events of this program ([DateNow], [SetMarkers],
      [Fetch], [Json]), [ClickHandle] and [addNewMarker] written in [prog]
      line by line, the state of the running page ([markers] as last
      committed by React, the [queue] of pending updaters, the suspended
      activations [tasks], the log of issued [requests], the [unhandled]
      rejections), the interpreter [run] of a handler activation up to its
      next [await], and [step], the transition function of the page under
      the four things its environment can do: a click, the settling of a
      [fetch], the settling of [response.json()], and a React render.
      The class [NumberToString] is the interface through which the
      controller renders numbers into the URL; its theorems hold for every
      instance.
    - [Spec]: the contract of the marker controller as the specification
      states it (module [Abstract]: a marker is [Pending], [Resolved] or
      [Failed]; clicks with fresh identifiers and settle messages keyed by
      identifier are its steps), the relation [refines] between a state of
      the page and a state of the contract, and the refinement theorem.
    - [NumberFormat]: the two built-in conversions the page calls, defined
      exactly on the binary64 value with integer arithmetic only:
      [to_string] ([Number::toString], ECMA-262 6.1.6.1.20, used by the
      template literal of line 59) and [toFixed] (ECMA-262 21.1.3.3, called
      with 4 at line 92).  It provides the instance of [NumberToString].
    - [Renderer]: what [App] returns (lines 77-98: [view], one keyed
      [AutoOpenMarker] element per marker with the children of its
      [Popup]), the mounted instances of [AutoOpenMarker] (lines 24-37: the
      ref, the effect with dependency list [[]] that calls [openPopup]),
      React's reconciliation of the keyed children ([commit]), and [page],
      the controller's state together with the screen: a render of the
      controller commits the view of the collection.
    - [Scenarios]: the page run on concrete event sequences with
      [NumberFormat]'s instance (the scenarios of the specification, and the
      runs where the code and the specification differ), and the general
      theorems applied to concrete inputs.

    How the parts interact: [Controller] is written against the interface
    [NumberToString] and never looks inside a number; [NumberFormat]
    implements the interface; [Spec] and [Renderer] are clients of
    [Controller]'s transition system ([step], [transition], [wf]) and use
    its lemmas, not its definitions' bodies; [Scenarios] instantiates
    everything.

    ** Modelling choices

    - Numbers are binary64 floats of the kernel ([PrimFloat.float]), as
      JavaScript's are.  The identifier is the integral time value returned
      by [Date.now()], modelled as a [Z]; a marker without an [id] property
      (the initial one) has [id = None], and [marker.id === tempId] is
      [bool_decide (id marker = Some tempId)]: [undefined] is never strictly
      equal to a number, and IEEE equality coincides with equality of [Z] on
      time values.
    - Strings are byte strings; the non-ASCII literals of the source are kept
      as their UTF-8 bytes.
    - The environment is unconstrained.  The clock may return any integer
      (two clicks may read the same millisecond, and the clock may go
      backwards); a [fetch] may fulfil with any response or reject with any
      value; [response.json()] may fulfil with any value or reject; settle
      events arrive in any order and interleave with clicks and renders.
      Theorems that need more (fresh clock readings) say so as hypotheses.
    - React is modelled by what [useState] promises: updater functions are
      queued and applied in order to the last committed value at the next
      render.  [logical] is the value the next render will commit.
    - No fuel is used in the controller: [prog] trees are finite and [run]
      is structurally recursive, so every handler activation terminates.
    - [NumberFormat] uses three bounds, each enough for every binary64
      number: [decade_ref] looks at the 640 exponents from -323 on (the
      magnitudes lie between [10^-324] and [10^309]); [decade] corrects its
      estimate by at most 4 steps and falls back to [decade_ref] when its
      own check fails, so its result never depends on that bound;
      [shortest] tries digit strings of length 1 to 17, and a theorem shows
      that length 17 always has a candidate, so the bound is never reached.  [toFixed] prints into
      [22 + f] digits, enough below [10^21], above which the language
      itself switches to [to_string].

    ** What the theorems show (by file)

    - [Prelude]: the algebra of [update_where] and [apply_all].
    - [JsValue]: decidable equality of values; [get_property] on each shape
      of value.
    - [Markers]: each updater preserves length, identifiers and positions; the
      reconciliation updaters touch exactly the markers with the captured
      identifier, are the identity when no marker has it, and commute for
      distinct identifiers.
    - [Async]: the monad and handler laws of [prog] up to [prog_equiv].
    - [Controller]: the optimistic insert; the behaviour of every settle
      event on every branch (resolved address, missing [display_name],
      [null] body, rejected [fetch], rejected body); that a settle event for
      one activation never changes a marker with another identifier; that
      positions and identifiers of existing markers never change and the
      collection never shrinks; that no rejection escapes [addNewMarker];
      that every activation terminates after at most two settle events and
      performs at most five effects; that renders are unobservable and
      completions commute; that one request is issued per click; that
      [step] and the rules [transition] agree; and where the code departs
      from its specification (a body without [display_name], an HTTP error
      status, two clicks within one millisecond).

    - [Spec]: the contract keeps the invariants of the specification
      (unique identifiers; a marker is pending exactly while its request is
      in flight), by rule induction; every transition of the page is
      matched by at most one step of the contract when clock readings are
      fresh (a forward simulation), hence every reachable state of the page
      implements a reachable state of the contract; a marker shows the
      placeholder while its request is in flight; a settled label is never
      written again.
    - [NumberFormat]: the digits [to_string] prints are at most seventeen,
      denote a decimal that rounds to the number, and are the fewest that
      do (the search never exhausts its lengths: seventeen digits are finer
      than the rounding interval of any binary64 number); [toFixed] prints
      the decimal nearest to the number with exactly the requested fraction
      digits (rounding, never truncating); digit strings read back to the
      integer printed and carry no superfluous leading zero; the decade
      estimated from the bit length equals the one found by linear search
      and brackets the number.  Decimals and binaries are compared after
      bringing them to a common integer scale ([unit_scaled],
      [quarter_scaled]).
    - [Renderer]: a commit mounts exactly the pins of the new markers and
      calls [openPopup] for exactly those; re-rendering after a label
      change opens nothing and keeps every ref; over any run of the page,
      [openPopup] has been called once per committed marker, in order; a
      click followed by a render shows the placeholder pin while the
      request is still outstanding; between renders the screen shows the
      committed collection and nothing else; and a click taken end to end
      (click, render, response, body, render) leaves the pin of the new
      marker showing the address or the failure text, its popup opened
      once.
    - [Scenarios]: the end-to-end runs, by evaluation.

    ** Plan for the parts not yet covered

    - [NumberFormat]: that the layout of the digits (positional or
      exponential notation) parses back to the decimal they denote.
    - [Async] and [Controller]: that [run] respects [prog_equiv], so that
      the laws of [prog] transfer to page states.
    - [Renderer]: what the popup shows for each kind of label value (React
      renders strings and numbers, nothing for [undefined], [null] and
      booleans, and refuses plain objects).

    ** Not modelled

    Leaflet and react-leaflet (tile loading, projection, hit testing, popup
    geometry, and what [openPopup] does to other open popups), the network
    and the Nominatim service, and the browser's JSON parser are the
    environment: their results enter as event payloads, and calls into them
    are recorded ([requests], [opened]).  The static configuration of the
    map (tile URL, attribution, container style) is kept only as far as
    [App] records the center, the zoom and the scroll-wheel setting. *)

From Stdlib Require Export ZArith Floats.
From stdpp Require Export base tactics option list strings.

Declare Scope js_scope.
Delimit Scope js_scope with js.

(** The hint databases of the development: [js] holds the resolution hints
    and the rewriting rules that normalise updaters applied to lists. *)
Create HintDb js discriminated.
Create Rewrite HintDb js.

(** ** Tactics *)

(** [case_test]: split on the first [bool_decide] or boolean test the goal or
    a hypothesis branches on, keeping the decided proposition. *)
Ltac case_test :=
  match goal with
  | |- context [bool_decide ?P] => destruct (bool_decide_reflect P)
  | H : context [bool_decide ?P] |- _ => destruct (bool_decide_reflect P)
  | |- context [if ?b then _ else _] => destruct b eqn:?
  | H : context [if ?b then _ else _] |- _ => destruct b eqn:?
  end.

(** [list_ext i]: prove two lists equal by comparing their lookups at [i]. *)
Tactic Notation "list_ext" ident(i) := apply list_eq; intros i.

(** ** Definitions *)

(** Decidable Leibniz equality on the kernel's floats. *)
#[export] Instance float_eq_dec : EqDecision float.
Proof.
  intros x y. destruct (PrimFloat.Leibniz.eqb x y) eqn:E.
  - left. by apply FloatAxioms.Leibniz.eqb_spec.
  - right. intros H%FloatAxioms.Leibniz.eqb_spec. congruence.
Defined.

(** [update_where test change l]: the array [l.map(x => test(x) ? change(x) : x)]. *)
Definition update_where {A : Type} (test : A → bool) (change : A → A)
    (l : list A) : list A :=
  (λ x, if test x then change x else x) <$> l.

(** [apply_all us l]: the value a state cell holding [l] takes after the
    queued updaters [us] (oldest first) have been processed. *)
Definition apply_all {A : Type} (us : list (A → A)) (a : A) : A :=
  foldl (λ acc u, u acc) a us.

(** ** Lemmas on [update_where] *)

Section update_where.
Context {A : Type}.
Implicit Types (test : A → bool) (change : A → A) (l : list A).

Lemma update_where_nil test change : update_where test change [] = [].
Proof. done. Qed.

Lemma update_where_cons test change x l :
  update_where test change (x :: l) =
  (if test x then change x else x) :: update_where test change l.
Proof. done. Qed.

Lemma update_where_app test change l1 l2 :
  update_where test change (l1 ++ l2) =
  update_where test change l1 ++ update_where test change l2.
Proof. apply fmap_app. Qed.

Lemma update_where_length test change l :
  length (update_where test change l) = length l.
Proof. apply length_fmap. Qed.

Lemma update_where_lookup test change l i :
  update_where test change l !! i =
  (λ x, if test x then change x else x) <$> l !! i.
Proof. apply list_lookup_fmap. Qed.

Lemma update_where_lookup_hit test change l i x :
  l !! i = Some x → test x = true →
  update_where test change l !! i = Some (change x).
Proof. intros Hi Ht. by rewrite update_where_lookup, Hi; simpl; rewrite Ht. Qed.

Lemma update_where_lookup_miss test change l i x :
  l !! i = Some x → test x = false →
  update_where test change l !! i = Some x.
Proof. intros Hi Ht. by rewrite update_where_lookup, Hi; simpl; rewrite Ht. Qed.

(** The update is the identity when no element passes the test. *)
Lemma update_where_none test change l :
  Forall (λ x, test x = false) l → update_where test change l = l.
Proof.
  intros Hl. induction Hl as [|x l Hx _ IH]; [done|].
  by rewrite update_where_cons, Hx, IH.
Qed.

(** A projection that [change] leaves alone is left alone by the update. *)
Lemma update_where_proj {B} (g : A → B) test change l :
  (∀ x, g (change x) = g x) →
  g <$> update_where test change l = g <$> l.
Proof.
  intros Hg. unfold update_where. rewrite <-list_fmap_compose.
  apply list_fmap_ext; intros i x _; simpl. by destruct (test x).
Qed.

(** Two updates commute when no element passes both tests and neither
    change moves an element across the other's test. *)
Lemma update_where_comm test1 change1 test2 change2 l :
  (∀ x, test1 x = true → test2 x = false) →
  (∀ x, test1 (change2 x) = test1 x) →
  (∀ x, test2 (change1 x) = test2 x) →
  update_where test1 change1 (update_where test2 change2 l) =
  update_where test2 change2 (update_where test1 change1 l).
Proof.
  intros Hdisj H12 H21. unfold update_where. rewrite <-!list_fmap_compose.
  apply list_fmap_ext; intros i x _; simpl.
  destruct (test1 x) eqn:E1, (test2 x) eqn:E2;
    rewrite ?H12, ?H21, ?E1, ?E2; try done.
  by rewrite (Hdisj x E1) in E2.
Qed.

(** A second update under the same test sees the elements the first one
    changed, when the change keeps them under the test. *)
Lemma update_where_twice test change1 change2 l :
  (∀ x, test (change1 x) = test x) →
  update_where test change2 (update_where test change1 l) =
  update_where test (change2 ∘ change1) l.
Proof.
  intros Hk. unfold update_where. rewrite <-list_fmap_compose.
  apply list_fmap_ext; intros i x _; simpl.
  destruct (test x) eqn:E; [by rewrite Hk, E | by rewrite E].
Qed.

(** A partial projection that [change] leaves alone selects the same
    values after the update. *)
Lemma update_where_omap {B} (g : A → option B) test change l :
  (∀ x, g (change x) = g x) →
  omap g (update_where test change l) = omap g l.
Proof.
  intros Hg. unfold update_where. induction l as [|x l IH]; [done|].
  csimpl. rewrite IH. by destruct (test x); rewrite ?Hg.
Qed.

(** When the values a partial projection selects are pairwise distinct, two
    positions that project to the same value are the same position. *)
Lemma NoDup_omap_lookup_inj {B} (g : A → option B) l i j x y b :
  NoDup (omap g l) → l !! i = Some x → l !! j = Some y →
  g x = Some b → g y = Some b → i = j.
Proof.
  revert i j. induction l as [|a l IH]; intros i j Hnd Hi Hj Hx Hy; [done|].
  simpl in Hnd.
  assert (∀ k z, g a = Some b → l !! k = Some z → g z = Some b → False) as Hno.
  { intros k z Ha Hk Hz. rewrite Ha in Hnd. apply NoDup_cons in Hnd as [Hn _].
    apply Hn, list_elem_of_omap. eauto using list_elem_of_lookup_2. }
  destruct i as [|i], j as [|j]; simplify_eq/=; [done|by edestruct Hno..|].
  f_equal. apply IH; try done.
  destruct (g a); [by apply NoDup_cons in Hnd as [_ ?] | done].
Qed.

End update_where.

(** ** Lemmas on [apply_all] *)

Section apply_all.
Context {A : Type}.
Implicit Types (u : A → A) (us : list (A → A)) (a : A).

Lemma apply_all_nil a : apply_all [] a = a.
Proof. done. Qed.

Lemma apply_all_cons u us a : apply_all (u :: us) a = apply_all us (u a).
Proof. done. Qed.

Lemma apply_all_snoc us u a : apply_all (us ++ [u]) a = u (apply_all us a).
Proof. unfold apply_all. by rewrite foldl_snoc. Qed.

Lemma apply_all_app us1 us2 a :
  apply_all (us1 ++ us2) a = apply_all us2 (apply_all us1 a).
Proof. unfold apply_all. by rewrite foldl_app. Qed.

(** A property kept by every queued updater is kept by the whole queue. *)
Lemma apply_all_preserves (P : A → Prop) us a :
  Forall (λ u, ∀ x, P x → P (u x)) us → P a → P (apply_all us a).
Proof.
  intros Hus. revert a. induction Hus as [|u us Hu _ IH]; intros a Ha; [done|].
  rewrite apply_all_cons. auto.
Qed.

(** A relation between input and output that is reflexive, transitive and
    established by every queued updater holds across the whole queue. *)
Lemma apply_all_rel (R : relation A) `{!Reflexive R, !Transitive R} us a :
  Forall (λ u, ∀ x, R x (u x)) us → R a (apply_all us a).
Proof.
  intros Hus. revert a. induction Hus as [|u us Hu _ IH]; intros a; [done|].
  rewrite apply_all_cons. etrans; [apply Hu | apply IH].
Qed.

End apply_all.

(** ** Sums over lists *)

(** Deleting an element lowers the sum by that element. *)
Lemma sum_list_delete (l : list nat) i x :
  l !! i = Some x → sum_list (delete i l) + x = sum_list l.
Proof.
  revert i. induction l as [|y l IH]; intros [|i] Hi; simplify_eq/=; [lia|].
  specialize (IH i Hi). lia.
Qed.

Lemma sum_list_fmap_delete {A} (f : A → nat) (l : list A) i x :
  l !! i = Some x → sum_list (f <$> delete i l) + f x = sum_list (f <$> l).
Proof.
  intros Hi. rewrite list_fmap_delete. apply sum_list_delete.
  by rewrite list_lookup_fmap, Hi.
Qed.

(** Deleting the element just appended gives the list back. *)
Lemma delete_snoc {A} (l : list A) x : delete (length l) (l ++ [x]) = l.
Proof. induction l as [|y l IH]; simpl; [done|]. by rewrite IH. Qed.

(** Deleting two positions in either order leaves the same list. *)
Lemma delete_delete_lt {A} (l : list A) i j :
  i < j → delete i (delete j l) = delete (j - 1) (delete i l).
Proof.
  revert i j. induction l as [|x l IH]; intros i j Hij; [by destruct i, j|].
  destruct j as [|j]; [lia|]. destruct i as [|i]; simpl.
  - by rewrite Nat.sub_0_r.
  - destruct j as [|j]; [lia|]. simpl. f_equal.
    rewrite IH by lia. simpl. by rewrite Nat.sub_0_r.
Qed.

(** A list of positive numbers sums to zero only when it is empty. *)
Lemma sum_list_pos_0 {A} (f : A → nat) (l : list A) :
  (∀ x, 0 < f x) → sum_list (f <$> l) = 0 ↔ l = [].
Proof.
  intros Hf. destruct l as [|x l]; [done|]. csimpl.
  specialize (Hf x). split; [lia|done].
Qed.

#[export] Hint Rewrite @update_where_nil @update_where_app @update_where_length
  @apply_all_nil @apply_all_cons @apply_all_snoc @apply_all_app : js.
#[export] Hint Rewrite @length_app @length_fmap : js.

(** ** Integers: comparisons and powers at a common scale *)

Section integers.
#[local] Open Scope Z_scope.

Lemma Z_compare_mul_r a b c : 0 < c → (a * c ?= b * c) = (a ?= b).
Proof.
  intros Hc. destruct (Z.compare_spec a b) as [->|Hlt|Hgt].
  - apply Z.compare_refl.
  - by apply Z.compare_lt_iff, Z.mul_lt_mono_pos_r.
  - by apply Z.compare_gt_iff, Z.mul_lt_mono_pos_r.
Qed.

(** [β^max(x,0)] and [β^max(-x,0)] brought to a common scale [S]. *)
Lemma pow_max_scale β x S :
  0 < β → Z.max (- x) 0 ≤ S →
  β ^ Z.max x 0 * β ^ (S - Z.max (- x) 0) = β ^ (x + S) ∧
  β ^ Z.max (- x) 0 * β ^ (S - Z.max (- x) 0) = β ^ S ∧
  0 < β ^ (S - Z.max (- x) 0).
Proof.
  intros Hβ HS. rewrite <-!Z.pow_add_r by lia. split; [f_equal; lia|].
  split; [f_equal; lia|]. apply Z.pow_pos_nonneg; lia.
Qed.

End integers.
