(* ===== verification/JsValue.v ===== *)
(** * JavaScript values, thrown values and settled promises

    The values that flow through [src/src/App.jsx]: the body of the geocoding
    response ([data], line 61), the label text of a marker ([text], lines 42,
    53, 66, 72) and what a rejected promise or a failing property read throws
    into the [catch] block (line 69).  Equality on [value] is structural
    identity (JavaScript's [Object.is] on primitives), decided by
    [value_eqb]. *)

From S2P Require Import Prelude.


(** ** Definitions *)

(** A JavaScript value as [JSON.parse] produces it, plus [undefined].
    Objects keep their own properties in insertion order. *)
#[local] Unset Elimination Schemes.
Inductive value : Type :=
| VUndefined
| VNull
| VBool (b : bool)
| VNumber (n : float)
| VString (s : string)
| VArray (elements : list value)
| VObject (fields : list (string * value)).
#[local] Set Elimination Schemes.

(** What a [throw] or a rejected promise carries.  [TypeError] is what a
    property read on [undefined] or [null] throws and what [fetch] rejects
    with on a network failure; [SyntaxError] is what [response.json()]
    rejects with on a body that is not JSON; [AbortError] is the
    [DOMException] of an aborted request; [Thrown] is any other value. *)
Inductive exn : Type :=
| TypeError
| SyntaxError
| AbortError
| Thrown (v : value).

(** The result of an operation that may throw. *)
Definition result (A : Type) : Type := exn + A.

(** The outcome of a promise once it has settled. *)
Inductive settled (A : Type) : Type :=
| Fulfilled (a : A)
| Rejected (reason : exn).
Arguments Fulfilled {A} a.
Arguments Rejected {A} reason.

(** The [Response] a fulfilled [fetch] yields.  The program never reads it
    (no [response.ok] or [response.status] test precedes line 61); the HTTP
    status is kept so that theorems can speak of it. *)
Record response : Type := Response { status : Z }.

(** [response.ok]: the status is in the range 200-299. *)
Definition ok (r : response) : bool :=
  bool_decide (200 ≤ status r ≤ 299)%Z.

(** Structural induction on values, through arrays and objects. *)
Section value_ind.
Context (P : value → Prop).
Context (Hundefined : P VUndefined) (Hnull : P VNull).
Context (Hbool : ∀ b, P (VBool b)) (Hnumber : ∀ n, P (VNumber n)).
Context (Hstring : ∀ s, P (VString s)).
Context (Harray : ∀ vs, Forall P vs → P (VArray vs)).
Context (Hobject : ∀ fs, Forall (λ kv, P kv.2) fs → P (VObject fs)).

Fixpoint value_ind (v : value) : P v :=
  match v with
  | VUndefined => Hundefined
  | VNull => Hnull
  | VBool b => Hbool b
  | VNumber n => Hnumber n
  | VString s => Hstring s
  | VArray vs =>
      Harray vs
        ((fix all vs : Forall P vs :=
            match vs with
            | [] => Forall_nil_2 P
            | v :: vs => Forall_cons_2 P v vs (value_ind v) (all vs)
            end) vs)
  | VObject fs =>
      Hobject fs
        ((fix all fs : Forall (λ kv, P kv.2) fs :=
            match fs with
            | [] => Forall_nil_2 _
            | kv :: fs => Forall_cons_2 _ kv fs (value_ind kv.2) (all fs)
            end) fs)
  end.
End value_ind.

(** Structural identity of two values, as a boolean. *)
Fixpoint value_eqb (x y : value) : bool :=
  match x, y with
  | VUndefined, VUndefined => true
  | VNull, VNull => true
  | VBool a, VBool b => bool_decide (a = b)
  | VNumber a, VNumber b => bool_decide (a = b)
  | VString a, VString b => bool_decide (a = b)
  | VArray xs, VArray ys =>
      (fix all xs ys :=
         match xs, ys with
         | [], [] => true
         | x :: xs, y :: ys => value_eqb x y && all xs ys
         | _, _ => false
         end) xs ys
  | VObject xs, VObject ys =>
      (fix all xs ys :=
         match xs, ys with
         | [], [] => true
         | kx :: xs, ky :: ys =>
             bool_decide (kx.1 = ky.1) && value_eqb kx.2 ky.2 && all xs ys
         | _, _ => false
         end) xs ys
  | _, _ => false
  end.

(** The own property [key] of an object, [undefined] when it has none. *)
Definition lookup_field (key : string) (fields : list (string * value)) : value :=
  match list_find (λ kv, kv.1 = key) fields with
  | Some (_, kv) => kv.2
  | None => VUndefined
  end.

(** [v.key] for a [key] that no built-in prototype defines (such as
    [display_name], line 62): a [TypeError] on [undefined] and [null], the
    own property of an object, [undefined] on every other value. *)
Definition get_property (v : value) (key : string) : result value :=
  match v with
  | VUndefined | VNull => inl TypeError
  | VObject fields => inr (lookup_field key fields)
  | VBool _ | VNumber _ | VString _ | VArray _ => inr VUndefined
  end.

(** Whether a value is a string, and which. *)
Definition as_string (v : value) : option string :=
  match v with VString s => Some s | _ => None end.

(** ** Decidable equality *)

Lemma value_eqb_refl x : value_eqb x x = true.
Proof.
  induction x as [| |b|n|s|vs IH|fs IH] using value_ind; simpl;
    try done; try by apply bool_decide_eq_true.
  - induction IH as [|v vs Hv _ IHvs]; [done|]. by rewrite Hv, IHvs.
  - induction IH as [|kv fs Hkv _ IHfs]; [done|].
    by rewrite bool_decide_eq_true_2, Hkv, IHfs.
Qed.

Lemma value_eqb_eq x y : value_eqb x y = true → x = y.
Proof.
  revert y.
  induction x as [| |b|n|s|vs IH|fs IH] using value_ind; intros [] H;
    simpl in H; try done; try (apply bool_decide_eq_true in H; by subst).
  - f_equal. revert elements H.
    induction IH as [|v vs Hv _ IHvs]; intros [|w ws] H; try done.
    apply andb_true_iff in H as [H1 H2]. f_equal; auto.
  - f_equal. revert fields H.
    induction IH as [|[k v] fs Hv _ IHfs]; intros [|[k' w] ws] H; try done.
    apply andb_true_iff in H as [H12 H3].
    apply andb_true_iff in H12 as [H1%bool_decide_eq_true H2].
    simpl in *. f_equal; [f_equal|]; auto.
Qed.

Lemma value_eqb_spec x y : value_eqb x y = true ↔ x = y.
Proof. split; [apply value_eqb_eq | intros ->; apply value_eqb_refl]. Qed.

#[export] Instance value_eq_dec : EqDecision value.
Proof.
  intros x y. destruct (value_eqb x y) eqn:E.
  - left. by apply value_eqb_spec.
  - right. intros H%value_eqb_spec. congruence.
Defined.

#[export] Instance exn_eq_dec : EqDecision exn.
Proof. solve_decision. Defined.

#[export] Instance settled_eq_dec `{EqDecision A} : EqDecision (settled A).
Proof. solve_decision. Defined.

#[export] Instance response_eq_dec : EqDecision response.
Proof. solve_decision. Defined.

(** ** Property read *)

Lemma lookup_field_nil key : lookup_field key [] = VUndefined.
Proof. done. Qed.

Lemma lookup_field_here key v fields :
  lookup_field key ((key, v) :: fields) = v.
Proof. unfold lookup_field; simpl. by rewrite decide_True. Qed.

Lemma lookup_field_later key k v fields :
  k ≠ key → lookup_field key ((k, v) :: fields) = lookup_field key fields.
Proof.
  intros Hk. unfold lookup_field; simpl. rewrite decide_False by done.
  by destruct (list_find _ fields) as [[]|].
Qed.

(** An object without the property reads as [undefined]. *)
Lemma lookup_field_absent key fields :
  key ∉ fields.*1 → lookup_field key fields = VUndefined.
Proof.
  induction fields as [|[k v] fields IH]; [done|]; simpl.
  intros [Hk Hin]%not_elem_of_cons. rewrite lookup_field_later by done. auto.
Qed.

(** The read returns the first own property with that key, if any. *)
Lemma lookup_field_present key fields v :
  lookup_field key fields = v → v ≠ VUndefined → (key, v) ∈ fields.
Proof.
  induction fields as [|[k w] fields IH]; [by intros <-|].
  destruct (decide (k = key)) as [->|Hk].
  - rewrite lookup_field_here. intros -> _. left.
  - rewrite lookup_field_later by done. intros. right. auto.
Qed.


Lemma get_property_object fields key :
  get_property (VObject fields) key = inr (lookup_field key fields).
Proof. done. Qed.

#[export] Hint Rewrite lookup_field_nil lookup_field_here get_property_object : js.
