(* ===== verification/Markers.v ===== *)
(** * Markers and the updaters of the [markers] state cell

    The data of [src/src/App.jsx]: the coordinate object a Leaflet click
    carries ([LatLng]), the marker objects held in the [markers] array
    ([Marker]), the constants of the source, and the three functions that
    [addNewMarker] passes to [setMarkers] (lines 56, 64-68 and 70-74), with
    the lemmas that say what each of them does to a collection. *)

From S2P Require Import Prelude JsValue.

#[local] Set Warnings "-inexact-float".

(** ** Definitions *)

(** The [latlng] object of a Leaflet mouse event: [{ lat: ..., lng: ... }]
    (line 17). *)
Module LatLng.
Record t : Type := mk { lat : float; lng : float }.
End LatLng.

#[export] Instance LatLng_eq_dec : EqDecision LatLng.t.
Proof. solve_decision. Defined.

Module Marker.

(** A marker object.  [id] is [None] when the object has no [id] property
    (reading it gives [undefined]), [Some t] when it holds the time value
    [t]. *)
Record t : Type := mk { id : option Z; lat : float; lng : float; text : value }.

#[export] Instance eq_dec : EqDecision t.
Proof. solve_decision. Defined.

(** The label of the marker the page starts with (line 42). *)
Definition text_initial : string := "初始位置".

(** The placeholder label of a marker whose address is being fetched
    (line 53). *)
Definition text_pending : string := "正在获取地址... ⏳".

(** The label of a marker whose address could not be fetched (line 72). *)
Definition text_failed : string := "获取地址失败".

(** [initialPosition] (line 11): the centre the map opens at. *)
Definition initialPosition : list float := [35.6586%float; 139.7454%float].

(** The initial value of the [markers] state cell (lines 41-43): one marker,
    without an [id]. *)
Definition initial_markers : list t :=
  [ {| id := None; lat := 35.6586%float; lng := 139.7454%float;
       text := VString text_initial |} ].

(** [tempMarker] (lines 49-54). *)
Definition tempMarker (tempId : Z) (latlng : LatLng.t) : t :=
  {| id := Some tempId;
     lat := LatLng.lat latlng;
     lng := LatLng.lng latlng;
     text := VString text_pending |}.

(** [{ ...marker, text: v }] (lines 66 and 72). *)
Definition with_text (marker : t) (v : value) : t :=
  {| id := id marker; lat := lat marker; lng := lng marker; text := v |}.

(** [marker.id === tempId] (lines 66 and 72). *)
Definition has_id (tempId : Z) (marker : t) : bool :=
  bool_decide (id marker = Some tempId).

(** [current => [...current, tempMarker]] (line 56). *)
Definition append (tempMarker : t) : list t → list t :=
  λ current, current ++ [tempMarker].

(** The updater of the success path (lines 64-68):
    [current => current.map(marker =>
       marker.id === tempId ? { ...marker, text: address } : marker)]. *)
Definition set_address (tempId : Z) (address : value) : list t → list t :=
  λ current,
    (λ marker, if has_id tempId marker then with_text marker address else marker)
      <$> current.

(** The updater of the [catch] block (lines 70-74):
    [current => current.map(marker =>
       marker.id === tempId ? { ...marker, text: '获取地址失败' } : marker)]. *)
Definition set_failed (tempId : Z) : list t → list t :=
  λ current,
    (λ marker,
       if has_id tempId marker then with_text marker (VString text_failed)
       else marker)
      <$> current.

(** The position of a marker, as the [position] prop receives it (line 88). *)
Definition position (marker : t) : float * float := (lat marker, lng marker).

(** The identifiers held by a collection, in order; markers without an [id]
    contribute nothing. *)
Definition ids (l : list t) : list Z := omap id l.

(** What never changes about a marker: its identifier and its position. *)
Definition identity (marker : t) : option Z * (float * float) :=
  (id marker, position marker).

(** Whether a label is still the placeholder. *)
Definition is_pending (marker : t) : bool :=
  bool_decide (text marker = VString text_pending).

(** ** The updaters as instances of [update_where] *)

Implicit Types (marker m : t) (l current : list t) (v : value) (tempId : Z).

Lemma set_address_update_where tempId v l :
  set_address tempId v l = update_where (has_id tempId) (λ m, with_text m v) l.
Proof. done. Qed.

Lemma set_failed_set_address tempId l :
  set_failed tempId l = set_address tempId (VString text_failed) l.
Proof. done. Qed.

(** ** Field lemmas *)

Lemma with_text_id m v : id (with_text m v) = id m.
Proof. done. Qed.

Lemma with_text_position m v : position (with_text m v) = position m.
Proof. done. Qed.

Lemma with_text_text m v : text (with_text m v) = v.
Proof. done. Qed.

Lemma with_text_same m : with_text m (text m) = m.
Proof. by destruct m. Qed.

Lemma with_text_twice m v w : with_text (with_text m v) w = with_text m w.
Proof. done. Qed.

Lemma has_id_with_text tempId m v : has_id tempId (with_text m v) = has_id tempId m.
Proof. done. Qed.

Lemma has_id_true tempId m : has_id tempId m = true ↔ id m = Some tempId.
Proof. apply bool_decide_eq_true. Qed.

Lemma has_id_false tempId m : has_id tempId m = false ↔ id m ≠ Some tempId.
Proof. apply bool_decide_eq_false. Qed.

Lemma has_id_tempMarker tempId t' latlng :
  has_id tempId (tempMarker t' latlng) = bool_decide (t' = tempId).
Proof. unfold has_id; simpl. apply bool_decide_ext. naive_solver. Qed.

(** A marker has at most one identifier. *)
Lemma has_id_disjoint t1 t2 m :
  t1 ≠ t2 → has_id t1 m = true → has_id t2 m = false.
Proof. rewrite has_id_true, has_id_false. congruence. Qed.

(** ** What the reconciliation updater does *)

Lemma set_address_length tempId v l : length (set_address tempId v l) = length l.
Proof. apply length_fmap. Qed.

Lemma set_address_app tempId v l1 l2 :
  set_address tempId v (l1 ++ l2) = set_address tempId v l1 ++ set_address tempId v l2.
Proof. apply fmap_app. Qed.

Lemma set_address_lookup tempId v l i :
  set_address tempId v l !! i =
  (λ m, if has_id tempId m then with_text m v else m) <$> l !! i.
Proof. apply list_lookup_fmap. Qed.

(** Identifiers and positions are those of the input, marker by marker. *)
Lemma set_address_id tempId v l : id <$> set_address tempId v l = id <$> l.
Proof. by apply update_where_proj. Qed.

Lemma set_address_position tempId v l :
  position <$> set_address tempId v l = position <$> l.
Proof. by apply update_where_proj. Qed.

Lemma set_address_identity tempId v l :
  identity <$> set_address tempId v l = identity <$> l.
Proof. by apply update_where_proj. Qed.

Lemma set_address_ids tempId v l : ids (set_address tempId v l) = ids l.
Proof. by apply update_where_omap. Qed.

(** A marker with another identifier, or none, keeps its place and its
    text. *)
Lemma set_address_other tempId v l i m :
  l !! i = Some m → id m ≠ Some tempId → set_address tempId v l !! i = Some m.
Proof.
  intros Hi Hm. rewrite set_address_update_where.
  eapply update_where_lookup_miss; [done | by apply has_id_false].
Qed.

(** A marker with the identifier gets the new text and keeps the rest. *)
Lemma set_address_hit tempId v l i m :
  l !! i = Some m → id m = Some tempId →
  set_address tempId v l !! i = Some (with_text m v).
Proof.
  intros Hi Hm. rewrite set_address_update_where.
  by rewrite (update_where_lookup_hit _ _ l i m Hi) by by apply has_id_true.
Qed.

(** C30: when no marker carries [tempId] (the marker is gone by the time
    the response arrives) the reconciliation leaves the collection as it
    is. *)
Theorem set_address_absent tempId v l : tempId ∉ ids l → set_address tempId v l = l.
Proof.
  intros Hin. rewrite set_address_update_where. apply update_where_none.
  apply Forall_forall; intros m Hm. apply has_id_false; intros Hid.
  apply Hin, list_elem_of_omap. eauto.
Qed.

(** Updates for distinct identifiers commute. *)
Lemma set_address_comm t1 v1 t2 v2 l :
  t1 ≠ t2 →
  set_address t1 v1 (set_address t2 v2 l) = set_address t2 v2 (set_address t1 v1 l).
Proof.
  intros Hne. rewrite !set_address_update_where.
  apply update_where_comm; eauto using has_id_disjoint, has_id_with_text.
Qed.

(** Two updates for the same identifier: the last text wins. *)
Lemma set_address_twice tempId v w l :
  set_address tempId w (set_address tempId v l) = set_address tempId w l.
Proof.
  rewrite !set_address_update_where, update_where_twice by done.
  unfold update_where. apply list_fmap_ext; intros i m _; simpl.
  by destruct (has_id tempId m).
Qed.

(** C29: when the identifiers of the collection are pairwise distinct, the
    reconciliation for [tempId] rewrites exactly one marker: the collection
    afterwards is the collection before with the text of the marker that
    carries [tempId] replaced, at its index. *)
Theorem set_address_unique tempId v l i m :
  NoDup (ids l) → l !! i = Some m → id m = Some tempId →
  set_address tempId v l = <[i := with_text m v]> l.
Proof.
  intros Hnd Hi Hm. list_ext j. destruct (decide (j = i)) as [->|Hj].
  - rewrite list_lookup_insert_eq by eauto using lookup_lt_Some.
    by apply set_address_hit.
  - rewrite list_lookup_insert_ne by done.
    destruct (l !! j) as [m'|] eqn:Hj'; [|by rewrite set_address_lookup, Hj'].
    apply set_address_other; [done|]. intros Hm'.
    apply Hj. by eapply (NoDup_omap_lookup_inj id l).
Qed.

(** ** What the insertion does *)

Lemma append_length m l : length (append m l) = S (length l).
Proof. unfold append. rewrite length_app; simpl. lia. Qed.

Lemma append_lookup_old m l i x : l !! i = Some x → append m l !! i = Some x.
Proof. intros Hi. by apply lookup_app_l_Some. Qed.

Lemma append_lookup_new m l : append m l !! length l = Some m.
Proof. unfold append. by rewrite list_lookup_middle. Qed.

Lemma append_last m l : last (append m l) = Some m.
Proof. apply last_snoc. Qed.

Lemma append_ids_temp tempId latlng l :
  ids (append (tempMarker tempId latlng) l) = ids l ++ [tempId].
Proof. unfold ids, append. by rewrite omap_app. Qed.

(** The new marker is reconciled by an update for its identifier even when
    the update runs in the same batch as the insertion. *)
Lemma set_address_append tempId v m l :
  set_address tempId v (append m l) =
  append (if has_id tempId m then with_text m v else m) (set_address tempId v l).
Proof. unfold append. by rewrite set_address_app. Qed.

#[export] Hint Rewrite set_address_length append_length set_address_ids
  set_address_id set_address_position with_text_id with_text_text
  with_text_position has_id_with_text : js.

End Marker.
