(* ===== verification/Async.v ===== *)
(** * Asynchronous functions as finite programs over events

    An [async] function such as [addNewMarker] ([src/src/App.jsx], lines
    45-76) runs until it returns, throws, or reaches an operation whose
    result the environment provides: a call into the runtime or an [await].
    [prog E A] is the tree of such runs: [Ret] is a normal completion,
    [Throw] an abrupt one, and [Vis ev k] performs the event [ev] and
    continues with [k] on its answer.  [bind] sequences, [try_catch] is the
    [try { ... } catch (error) { ... }] statement (lines 58-75), and [await]
    turns the rejection of the awaited promise into a [Throw] (lines 60 and
    61).  The trees of this program are finite, so [prog] is inductive and
    its operations are structurally recursive.

    Programs are compared up to [prog_equiv], equality of trees with
    continuations compared pointwise. *)

From S2P Require Import Prelude JsValue.

(** ** Definitions *)

Section prog.
Context {E : Type → Type}.

Inductive prog (A : Type) : Type :=
| Ret (a : A)
| Throw (e : exn)
| Vis {X : Type} (ev : E X) (k : X → prog A).

#[global] Arguments Ret {A} a.
#[global] Arguments Throw {A} e.
#[global] Arguments Vis {A X} ev k.

(** Sequencing: run [p], then [f] on its result; a throw of [p] skips [f]. *)
Fixpoint bind {A B} (p : prog A) (f : A → prog B) : prog B :=
  match p with
  | Ret a => f a
  | Throw e => Throw e
  | Vis ev k => Vis ev (λ x, bind (k x) f)
  end.

(** [try { p } catch (error) { handler error }]. *)
Fixpoint try_catch {A} (p : prog A) (handler : exn → prog A) : prog A :=
  match p with
  | Ret a => Ret a
  | Throw e => handler e
  | Vis ev k => Vis ev (λ x, try_catch (k x) handler)
  end.

(** Perform one event and return its answer. *)
Definition call {X} (ev : E X) : prog X := Vis ev Ret.

(** Complete normally or abruptly, as a [result] says. *)
Definition of_result {A} (r : result A) : prog A :=
  match r with
  | inr a => Ret a
  | inl e => Throw e
  end.

(** The value of [await] once the awaited promise has settled. *)
Definition of_settled {A} (s : settled A) : prog A :=
  match s with
  | Fulfilled a => Ret a
  | Rejected e => Throw e
  end.

(** [await] on the promise the event [ev] stands for: suspend until it
    settles, then continue with its value or throw its reason. *)
Definition await {A} (ev : E (settled A)) : prog A := Vis ev of_settled.

(** Equality of program trees up to pointwise equality of continuations. *)
Inductive prog_equiv {A} : relation (prog A) :=
| equiv_Ret a : prog_equiv (Ret a) (Ret a)
| equiv_Throw e : prog_equiv (Throw e) (Throw e)
| equiv_Vis {X} (ev : E X) k1 k2 :
    (∀ x, prog_equiv (k1 x) (k2 x)) → prog_equiv (Vis ev k1) (Vis ev k2).

(** The number of events on the longest run of a program. *)
Fixpoint depth {A} (p : prog A) (bound : nat) : Prop :=
  match p with
  | Ret _ | Throw _ => True
  | Vis ev k =>
      match bound with
      | 0 => False
      | S bound => ∀ x, depth (k x) bound
      end
  end.

(** Whether a program can complete abruptly. *)
Fixpoint may_throw {A} (p : prog A) : Prop :=
  match p with
  | Ret _ => False
  | Throw _ => True
  | Vis ev k => ∃ x, may_throw (k x)
  end.

End prog.

#[global] Arguments prog E A : clear implicits.

#[export] Instance prog_ret {E} : MRet (prog E) := λ A, Ret.
#[export] Instance prog_bind {E} : MBind (prog E) := λ A B f p, bind p f.

#[export] Instance prog_equiv_instance {E A} : Equiv (prog E A) := prog_equiv.

(** ** [prog_equiv] is an equivalence and the operations respect it *)

Section laws.
Context {E : Type → Type}.
Implicit Types (e : exn).

#[export] Instance prog_equiv_refl {A} : Reflexive (≡@{prog E A}).
Proof. intros p. induction p; by constructor. Qed.

#[export] Instance prog_equiv_sym {A} : Symmetric (≡@{prog E A}).
Proof. intros p q H. induction H; by constructor. Qed.

Lemma prog_equiv_Vis_inv {A X} (ev : E X) (k : X → prog E A) q :
  Vis ev k ≡ q → ∃ k', q = Vis ev k' ∧ ∀ x, k x ≡ k' x.
Proof.
  intros H. change (match Vis ev k with
    | Vis ev1 k1 => ∃ k', q = Vis ev1 k' ∧ ∀ x, k1 x ≡ k' x
    | _ => True end).
  destruct H; eauto.
Qed.

#[export] Instance prog_equiv_trans {A} : Transitive (≡@{prog E A}).
Proof.
  intros p q r H. revert r. induction H as [a|e|X ev k1 k2 _ IH]; intros r Hr;
    [done..|].
  apply prog_equiv_Vis_inv in Hr as (k3 & -> & Hk).
  constructor; intros x. apply IH, Hk.
Qed.

#[export] Instance prog_equiv_equivalence {A} : Equivalence (≡@{prog E A}).
Proof. split; apply _. Qed.

#[export] Instance bind_proper {A B} :
  Proper ((≡) ==> pointwise_relation A (≡) ==> (≡)) (@bind E A B).
Proof.
  intros p q Hpq f g Hfg. induction Hpq; simpl; [apply Hfg|done|].
  constructor; auto.
Qed.

#[export] Instance try_catch_proper {A} :
  Proper ((≡) ==> pointwise_relation exn (≡) ==> (≡)) (@try_catch E A).
Proof.
  intros p q Hpq f g Hfg. induction Hpq; simpl; [done|apply Hfg|].
  constructor; auto.
Qed.

(** ** Monad laws *)

Lemma bind_ret_l {A B} (a : A) (f : A → prog E B) : bind (Ret a) f = f a.
Proof. done. Qed.

Lemma bind_throw {A B} e (f : A → prog E B) : bind (Throw e) f = Throw e.
Proof. done. Qed.

Lemma bind_ret_r {A} (p : prog E A) : bind p Ret ≡ p.
Proof. induction p; simpl; by constructor. Qed.


Lemma bind_call {X B} (ev : E X) (f : X → prog E B) : bind (call ev) f = Vis ev f.
Proof. done. Qed.

(** ** Laws of [try_catch] *)

Lemma try_catch_ret {A} (a : A) (h : exn → prog E A) : try_catch (Ret a) h = Ret a.
Proof. done. Qed.

Lemma try_catch_throw {A} e (h : exn → prog E A) : try_catch (Throw e) h = h e.
Proof. done. Qed.

(** A handler that rethrows is no handler. *)
Lemma try_catch_rethrow {A} (p : prog E A) : try_catch p Throw ≡ p.
Proof. induction p; simpl; by constructor. Qed.

(** A program that cannot throw never enters the handler. *)
Lemma try_catch_no_throw {A} (p : prog E A) h : ¬ may_throw p → try_catch p h ≡ p.
Proof.
  induction p as [a|e|X ev k IH]; simpl; intros Hp; [done|by destruct Hp|].
  constructor; intros x. apply IH. eauto.
Qed.

(** A handler that cannot throw leaves a program that cannot throw. *)
Lemma try_catch_safe {A} (p : prog E A) h :
  (∀ e, ¬ may_throw (h e)) → ¬ may_throw (try_catch p h).
Proof.
  intros Hh. induction p as [a|e|X ev k IH]; simpl; [tauto|apply Hh|].
  intros [x Hx]. by eapply IH.
Qed.

(** [await] was reached with a rejected promise: the handler runs. *)
Lemma try_catch_await_rejected {A B} (f : A → prog E B) h e :
  try_catch (bind (of_settled (Rejected e)) f) h = h e.
Proof. done. Qed.

Lemma try_catch_await_fulfilled {A B} (f : A → prog E B) h a :
  try_catch (bind (of_settled (Fulfilled a)) f) h = try_catch (f a) h.
Proof. done. Qed.

(** ** Bounds on the length of runs *)

Lemma depth_mono {A} (p : prog E A) n m : n ≤ m → depth p n → depth p m.
Proof.
  revert n m. induction p as [a|e|X ev k IH]; simpl; [done..|].
  intros [|n] [|m] Hnm Hd; try done; [lia|]. intros x. apply (IH x n); [lia|done].
Qed.

Lemma depth_bind {A B} (p : prog E A) (f : A → prog E B) n m :
  depth p n → (∀ a, depth (f a) m) → depth (bind p f) (n + m).
Proof.
  revert n. induction p as [a|e|X ev k IH]; simpl; intros n Hp Hf; [|done|].
  - apply (depth_mono _ m); [lia|done].
  - destruct n as [|n]; [done|]. simpl. intros x. by apply IH.
Qed.

Lemma depth_try_catch {A} (p : prog E A) h n m :
  depth p n → (∀ e, depth (h e) m) → depth (try_catch p h) (n + m).
Proof.
  revert n. induction p as [a|e|X ev k IH]; simpl; intros n Hp Hh; [done| |].
  - apply (depth_mono _ m); [lia|done].
  - destruct n as [|n]; [done|]. simpl. intros x. by apply IH.
Qed.

End laws.

#[export] Hint Rewrite @bind_ret_l @bind_throw @bind_call @try_catch_ret
  @try_catch_throw : js.
