(* ===== verification/Controller.v ===== *)
(** * The marker controller: [ClickHandle], [addNewMarker] and the page

    [addNewMarker] ([src/src/App.jsx], lines 45-76) written as a program over
    the events it performs, [ClickHandle]'s click handler (lines 14-22), and
    the state machine of the running page: what a click, the settling of a
    [fetch], the settling of [response.json()] and a React render each do to
    the [markers] state cell, to its queue of pending updaters and to the
    suspended activations of [addNewMarker].

    Everything here is stated against the interface [NumberToString], the
    rendering of a number inside the template literal of line 59; the file
    [NumberFormat] implements it. *)

From S2P Require Import Prelude JsValue Markers Async.

(** ** Definitions *)

(** What the template literal of line 59 needs from the language: the
    string a number is rendered as. *)
Class NumberToString : Type := number_to_string : float → string.

(** The mouse event Leaflet passes to a [click] handler; the handler reads
    [e.latlng] only (line 18). *)
Record LeafletMouseEvent : Type := MouseEvent { latlng : LatLng.t }.

(** The operations [addNewMarker] performs on its environment:
    [Date.now()] (line 47), [setMarkers(updater)] (lines 56, 64, 70), the
    promise of [fetch(url)] (line 60) and the promise of [response.json()]
    (line 61). *)
Inductive eff : Type → Type :=
| DateNow : eff Z
| SetMarkers (updater : list Marker.t → list Marker.t) : eff unit
| Fetch (url : string) : eff (settled response)
| Json (r : response) : eff (settled value).

Abbreviation program := (prog eff).

(** An activation of an [async] function suspended at an [await]: on the
    promise of a [fetch] or on the promise of a body, with the rest of the
    function as continuation. *)
Inductive task : Type :=
| AwaitFetch (url : string) (k : settled response → program unit)
| AwaitJson (r : response) (k : settled value → program unit).

(** The state of the page.  [markers] is the value of the state cell as of
    the last render (line 41); [queue] holds the updaters passed to
    [setMarkers] since, oldest first; [tasks] are the suspended activations
    of [addNewMarker]; [requests] logs the URLs handed to [fetch];
    [unhandled] collects the rejections of activations that threw. *)
Record state : Type := State {
  markers : list Marker.t;
  queue : list (list Marker.t → list Marker.t);
  tasks : list task;
  requests : list string;
  unhandled : list exn;
}.

(** What the environment does to the page: a click at [e] while the clock
    reads [now]; the [fetch] awaited by task [i] settles; the body awaited by
    task [i] settles; React renders. *)
Inductive event : Type :=
| Click (e : LeafletMouseEvent) (now : Z)
| FetchSettled (i : nat) (outcome : settled response) (now : Z)
| JsonSettled (i : nat) (outcome : settled value) (now : Z)
| Render.

(** The page as it loads (lines 41-43). *)
Definition init : state :=
  {| markers := Marker.initial_markers; queue := []; tasks := [];
     requests := []; unhandled := [] |}.

(** The value the next render commits: the queued updaters applied in
    order to the current value. *)
Definition logical (st : state) : list Marker.t :=
  apply_all (queue st) (markers st).

(** [setMarkers(updater)]: the updater joins the queue. *)
Definition enqueue (updater : list Marker.t → list Marker.t) (st : state) : state :=
  {| markers := markers st; queue := queue st ++ [updater]; tasks := tasks st;
     requests := requests st; unhandled := unhandled st |}.

(** An activation reaches an [await]: it joins the suspended tasks. *)
Definition suspend (t : task) (st : state) : state :=
  {| markers := markers st; queue := queue st; tasks := tasks st ++ [t];
     requests := requests st; unhandled := unhandled st |}.

(** [fetch(url)] is called: the request is issued. *)
Definition issue (url : string) (st : state) : state :=
  {| markers := markers st; queue := queue st; tasks := tasks st;
     requests := requests st ++ [url]; unhandled := unhandled st |}.

(** An activation completes abruptly: its promise rejects, unhandled. *)
Definition reject (e : exn) (st : state) : state :=
  {| markers := markers st; queue := queue st; tasks := tasks st;
     requests := requests st; unhandled := unhandled st ++ [e] |}.

(** Task [i] is resumed: it leaves the suspended tasks. *)
Definition resume (i : nat) (st : state) : state :=
  {| markers := markers st; queue := queue st; tasks := delete i (tasks st);
     requests := requests st; unhandled := unhandled st |}.

(** A render: React processes the queue and commits the result. *)
Definition render (st : state) : state :=
  {| markers := logical st; queue := []; tasks := tasks st;
     requests := requests st; unhandled := unhandled st |}.

(** Run an activation from the state [st] until it completes or reaches an
    [await], while the clock reads [now]. *)
Fixpoint run (now : Z) (p : program unit) (st : state) : state :=
  match p with
  | Ret _ => st
  | Throw e => reject e st
  | Vis ev k =>
      match ev in eff X
        return (X → program unit) → (X → state → state) → state with
      | DateNow => λ _ continue, continue now st
      | SetMarkers updater => λ _ continue, continue tt (enqueue updater st)
      | Fetch url => λ k _, suspend (AwaitFetch url k) (issue url st)
      | Json r => λ k _, suspend (AwaitJson r k) st
      end k (λ x, run now (k x))
  end.

Section controller.
Context `{!NumberToString}.

(** The request URL (line 59):
    [`https://nominatim.openstreetmap.org/reverse?format=json&lat=${latlng.lat}&lon=${latlng.lng}`]. *)
Definition url (latlng : LatLng.t) : string :=
  "https://nominatim.openstreetmap.org/reverse?format=json&lat="
    +:+ number_to_string (LatLng.lat latlng)
    +:+ "&lon=" +:+ number_to_string (LatLng.lng latlng).

(** The [catch] block (lines 69-75). *)
Definition on_error (tempId : Z) : exn → program unit :=
  λ error, call (SetMarkers (Marker.set_failed tempId)).

(** The statements of the [try] block after [response] is known
    (lines 61-68). *)
Definition with_response (tempId : Z) (response : response) : program unit :=
  data ← await (Json response);
  address ← of_result (get_property data "display_name");
  call (SetMarkers (Marker.set_address tempId address)).

(** The [try] block (lines 59-68). *)
Definition try_block (tempId : Z) (latlng : LatLng.t) : program unit :=
  let url := url latlng in
  response ← await (Fetch url);
  with_response tempId response.

(** [addNewMarker] (lines 45-76). *)
Definition addNewMarker (latlng : LatLng.t) : program unit :=
  tempId ← call DateNow;
  let tempMarker := Marker.tempMarker tempId latlng in
  call (SetMarkers (Marker.append tempMarker));;
  try_catch (try_block tempId latlng) (on_error tempId).

(** The [click] handler that [ClickHandle] registers (lines 16-19):
    [click(e) { onMapClick(e.latlng) }]. *)
Definition ClickHandle (onMapClick : LatLng.t → program unit)
    (e : LeafletMouseEvent) : program unit :=
  onMapClick (latlng e).

(** The rest of an activation suspended at line 60. *)
Definition after_fetch (tempId : Z) : settled response → program unit :=
  λ outcome,
    try_catch (of_settled outcome ≫= with_response tempId) (on_error tempId).

(** The rest of an activation suspended at line 61. *)
Definition after_json (tempId : Z) : settled value → program unit :=
  λ outcome,
    try_catch
      (data ← of_settled outcome;
       address ← of_result (get_property data "display_name");
       call (SetMarkers (Marker.set_address tempId address)))
      (on_error tempId).

(** One transition of the page.  A settle event for a task that is not
    suspended on that kind of promise is not enabled. *)
Definition step (ev : event) (st : state) : option state :=
  match ev with
  | Click e now => Some (run now (ClickHandle addNewMarker e) st)
  | FetchSettled i outcome now =>
      match tasks st !! i with
      | Some (AwaitFetch _ k) => Some (run now (k outcome) (resume i st))
      | _ => None
      end
  | JsonSettled i outcome now =>
      match tasks st !! i with
      | Some (AwaitJson _ k) => Some (run now (k outcome) (resume i st))
      | _ => None
      end
  | Render => Some (render st)
  end.

(** A sequence of transitions, oldest first; [None] when one of them is not
    enabled. *)
Fixpoint exec (evs : list event) (st : state) : option state :=
  match evs with
  | [] => Some st
  | ev :: evs => step ev st ≫= exec evs
  end.

(** The states the page can be in. *)
Definition reachable (st : state) : Prop := ∃ evs, exec evs init = Some st.

(** [task_of tempId t]: [t] is the activation of [addNewMarker] that read
    [tempId] from the clock, suspended at one of its two [await]s. *)
Inductive task_of (tempId : Z) : task → Prop :=
| task_of_fetch u : task_of tempId (AwaitFetch u (after_fetch tempId))
| task_of_json r : task_of tempId (AwaitJson r (after_json tempId)).

(** The settle events a task still needs before it completes. *)
Definition awaits_left (t : task) : nat :=
  match t with
  | AwaitFetch _ _ => 2
  | AwaitJson _ _ => 1
  end.

(** The text the success path writes for a body [data], or [None] when
    reading [data.display_name] throws. *)
Definition address_of (data : value) : option value :=
  match get_property data "display_name" with
  | inr address => Some address
  | inl _ => None
  end.

(** The updater an activation enqueues when the body settles. *)
Definition reconcile (tempId : Z) (outcome : settled value) :
    list Marker.t → list Marker.t :=
  match outcome with
  | Fulfilled data =>
      match address_of data with
      | Some address => Marker.set_address tempId address
      | None => Marker.set_failed tempId
      end
  | Rejected _ => Marker.set_failed tempId
  end.

(** The text that updater writes. *)
Definition label_of (outcome : settled value) : value :=
  match outcome with
  | Fulfilled data => default (VString Marker.text_failed) (address_of data)
  | Rejected _ => VString Marker.text_failed
  end.

(** The task a settle event resumes. *)
Definition target (ev : event) : option nat :=
  match ev with
  | FetchSettled i _ _ | JsonSettled i _ _ => Some i
  | Click _ _ | Render => None
  end.

(** The request a transition issues. *)
Definition request_of (ev : event) : list string :=
  match ev with
  | Click e _ => [url (latlng e)]
  | _ => []
  end.

(** What one transition does to the logical collection: a marker is
    appended, the markers with one identifier get a new text, or nothing. *)
Inductive change : Type :=
| Insert (m : Marker.t)
| Relabel (tempId : Z) (v : value)
| Keep.

Definition apply_change (c : change) (l : list Marker.t) : list Marker.t :=
  match c with
  | Insert m => Marker.append m l
  | Relabel tempId v => Marker.set_address tempId v l
  | Keep => l
  end.

(** The marker a change adds to the collection. *)
Definition inserted (c : change) : list Marker.t :=
  match c with
  | Insert m => [m]
  | Relabel _ _ | Keep => []
  end.

(** The clock reading of a click. *)
Definition click_time (ev : event) : option Z :=
  match ev with
  | Click _ now => Some now
  | _ => None
  end.

(** The transitions of the page as rules: a click inserts the placeholder
    marker and suspends a new activation on its [fetch]; a fulfilled [fetch]
    moves the activation to its second [await]; a rejected [fetch] and a
    settled body complete the activation with one relabelling; a render
    commits. *)
Inductive transition (st : state) : event → change → state → Prop :=
| transition_click e now :
    transition st (Click e now)
      (Insert (Marker.tempMarker now (latlng e)))
      (suspend (AwaitFetch (url (latlng e)) (after_fetch now))
         (issue (url (latlng e))
            (enqueue (Marker.append (Marker.tempMarker now (latlng e))) st)))
| transition_fetch_fulfilled i u tempId r now :
    tasks st !! i = Some (AwaitFetch u (after_fetch tempId)) →
    transition st (FetchSettled i (Fulfilled r) now) Keep
      (suspend (AwaitJson r (after_json tempId)) (resume i st))
| transition_fetch_rejected i u tempId e now :
    tasks st !! i = Some (AwaitFetch u (after_fetch tempId)) →
    transition st (FetchSettled i (Rejected e) now)
      (Relabel tempId (VString Marker.text_failed))
      (enqueue (Marker.set_failed tempId) (resume i st))
| transition_json_settled i r tempId outcome now :
    tasks st !! i = Some (AwaitJson r (after_json tempId)) →
    transition st (JsonSettled i outcome now)
      (Relabel tempId (label_of outcome))
      (enqueue (reconcile tempId outcome) (resume i st))
| transition_render :
    transition st Render Keep (render st).

(** Two states are equivalent when they differ only in how much of the
    queue has been committed. *)
Definition state_equiv (st1 st2 : state) : Prop :=
  logical st1 = logical st2 ∧ tasks st1 = tasks st2 ∧
  requests st1 = requests st2 ∧ unhandled st1 = unhandled st2.

(** Settle the promise the oldest suspended task waits for, with the
    outcome [fo] if it is a [fetch] and [jo] if it is a body. *)
Definition settle_first (fo : settled response) (jo : settled value)
    (now : Z) (st : state) : option state :=
  match tasks st with
  | [] => None
  | AwaitFetch _ _ :: _ => step (FetchSettled 0 fo now) st
  | AwaitJson _ _ :: _ => step (JsonSettled 0 jo now) st
  end.

(** Settle promises, oldest task first, until none is awaited or [fuel]
    events have been delivered. *)
Fixpoint drain (fuel : nat) (fo : settled response) (jo : settled value)
    (now : Z) (st : state) : state :=
  match fuel with
  | O => st
  | S fuel =>
      match settle_first fo jo now st with
      | Some st' => drain fuel fo jo now st'
      | None => st
      end
  end.

(** The invariant of the page: every suspended task is an activation of
    [addNewMarker], and no activation has thrown. *)
Definition wf (st : state) : Prop :=
  Forall (λ t, ∃ tempId, task_of tempId t) (tasks st) ∧ unhandled st = [].

(** The settle events all suspended tasks still need. *)
Definition work_left (st : state) : nat := sum_list (awaits_left <$> tasks st).

(** ** The state after each operation *)

Implicit Types (st : state) (t : task) (tempId now : Z) (i : nat).

Lemma logical_enqueue u st : logical (enqueue u st) = u (logical st).
Proof. apply apply_all_snoc. Qed.

Lemma logical_suspend t st : logical (suspend t st) = logical st.
Proof. done. Qed.

Lemma logical_issue u st : logical (issue u st) = logical st.
Proof. done. Qed.

Lemma logical_resume i st : logical (resume i st) = logical st.
Proof. done. Qed.

(** A render commits the logical collection and empties the queue; the
    logical collection itself does not change. *)
Lemma logical_render st : logical (render st) = logical st.
Proof. done. Qed.

Lemma markers_render st : markers (render st) = logical st.
Proof. done. Qed.

(** ** One activation, from each of its entry points *)

Lemma run_addNewMarker now latlng st :
  run now (addNewMarker latlng) st =
  suspend (AwaitFetch (url latlng) (after_fetch now))
    (issue (url latlng)
       (enqueue (Marker.append (Marker.tempMarker now latlng)) st)).
Proof. done. Qed.

Lemma run_after_fetch_fulfilled now tempId r st :
  run now (after_fetch tempId (Fulfilled r)) st =
  suspend (AwaitJson r (after_json tempId)) st.
Proof. done. Qed.

Lemma run_after_fetch_rejected now tempId e st :
  run now (after_fetch tempId (Rejected e)) st =
  enqueue (Marker.set_failed tempId) st.
Proof. done. Qed.

Lemma run_after_json now tempId outcome st :
  run now (after_json tempId outcome) st = enqueue (reconcile tempId outcome) st.
Proof.
  destruct outcome as [data|e]; [|done].
  unfold reconcile, address_of, after_json; simpl.
  by destruct (get_property data "display_name").
Qed.

(** ** The transition function on each event *)

Lemma step_click e now st :
  step (Click e now) st =
  Some (suspend (AwaitFetch (url (latlng e)) (after_fetch now))
          (issue (url (latlng e))
             (enqueue (Marker.append (Marker.tempMarker now (latlng e))) st))).
Proof. done. Qed.

Lemma step_fetch_fulfilled i u tempId r now st :
  tasks st !! i = Some (AwaitFetch u (after_fetch tempId)) →
  step (FetchSettled i (Fulfilled r) now) st =
  Some (suspend (AwaitJson r (after_json tempId)) (resume i st)).
Proof. intros Hi. simpl. by rewrite Hi. Qed.

Lemma step_fetch_rejected i u tempId e now st :
  tasks st !! i = Some (AwaitFetch u (after_fetch tempId)) →
  step (FetchSettled i (Rejected e) now) st =
  Some (enqueue (Marker.set_failed tempId) (resume i st)).
Proof. intros Hi. simpl. by rewrite Hi. Qed.

Lemma step_json_settled i r tempId outcome now st :
  tasks st !! i = Some (AwaitJson r (after_json tempId)) →
  step (JsonSettled i outcome now) st =
  Some (enqueue (reconcile tempId outcome) (resume i st)).
Proof. intros Hi. simpl. by rewrite Hi, run_after_json. Qed.

Lemma step_render st : step Render st = Some (render st).
Proof. done. Qed.

(** A settle event is enabled exactly on a task suspended on that kind of
    promise. *)
Lemma step_fetch_enabled i outcome now st :
  is_Some (step (FetchSettled i outcome now) st) ↔
  ∃ u k, tasks st !! i = Some (AwaitFetch u k).
Proof.
  simpl. destruct (tasks st !! i) as [[u k|r k]|]; split;
    try (by intros [? [=]]); try (by intros (? & ? & [=])); eauto.
Qed.

Lemma step_json_enabled i outcome now st :
  is_Some (step (JsonSettled i outcome now) st) ↔
  ∃ r k, tasks st !! i = Some (AwaitJson r k).
Proof.
  simpl. destruct (tasks st !! i) as [[u k|r k]|]; split;
    try (by intros [? [=]]); try (by intros (? & ? & [=])); eauto.
Qed.

(** ** The transition function implements the rules *)

Lemma reconcile_label tempId outcome l :
  reconcile tempId outcome l = Marker.set_address tempId (label_of outcome) l.
Proof.
  destruct outcome as [data|e]; [|done]. unfold reconcile, label_of.
  by destruct (address_of data).
Qed.

Lemma transition_step st ev c st' : transition st ev c st' → step ev st = Some st'.
Proof.
  destruct 1; eauto using step_click, step_fetch_fulfilled, step_fetch_rejected,
    step_json_settled, step_render.
Qed.

Lemma step_transition st ev st' :
  wf st → step ev st = Some st' → ∃ c, transition st ev c st'.
Proof.
  intros [Hwf _] Hstep. destruct ev as [e now|i [r|e] now|i outcome now|].
  1, 5: by injection Hstep as <-; eexists; constructor.
  all: simpl in Hstep; destruct (tasks st !! i) as [t|] eqn:Hi; [|done];
    destruct (Forall_lookup_1 _ _ _ _ Hwf Hi) as [tempId Ht];
    destruct Ht as [u|r']; simplify_eq/=; rewrite ?run_after_json; eexists; by econstructor.
Qed.

(** What a transition does to each component of the state. *)
Lemma transition_logical st ev c st' :
  transition st ev c st' → logical st' = apply_change c (logical st).
Proof.
  destruct 1; simpl;
    rewrite ?logical_suspend, ?logical_issue, ?logical_enqueue, ?logical_resume;
    auto using reconcile_label.
Qed.

Lemma transition_requests st ev c st' :
  transition st ev c st' → requests st' = requests st ++ request_of ev.
Proof. destruct 1; simpl; by rewrite ?app_nil_r. Qed.

Lemma transition_unhandled st ev c st' :
  transition st ev c st' → unhandled st' = unhandled st.
Proof. by destruct 1. Qed.

Lemma transition_tasks_wf st ev c st' :
  transition st ev c st' →
  Forall (λ t, ∃ tempId, task_of tempId t) (tasks st) →
  Forall (λ t, ∃ tempId, task_of tempId t) (tasks st').
Proof.
  destruct 1; simpl; intros Hwf; rewrite ?Forall_app, ?Forall_singleton;
    repeat split; eauto using Forall_delete, task_of.
Qed.

Lemma wf_init : wf init.
Proof. by split; [constructor|]. Qed.

Lemma wf_step st ev st' : wf st → step ev st = Some st' → wf st'.
Proof.
  intros Hwf Hstep. destruct (step_transition _ _ _ Hwf Hstep) as [c Ht].
  destruct Hwf as [Htasks Hun].
  split; [by eapply transition_tasks_wf | by erewrite transition_unhandled].
Qed.

(** A property kept by every transition from a well-formed state holds
    after every sequence of transitions. *)
Lemma exec_invariant (P : state → Prop) evs st st' :
  (∀ st ev st', wf st → P st → step ev st = Some st' → P st') →
  wf st → P st → exec evs st = Some st' → wf st' ∧ P st'.
Proof.
  intros HP. revert st. induction evs as [|ev evs IH]; simpl; intros st Hwf Hst.
  - by intros [= <-].
  - destruct (step ev st) as [st1|] eqn:Hstep; [|done]; simpl.
    apply IH; eauto using wf_step.
Qed.

Lemma reachable_wf st : reachable st → wf st.
Proof.
  intros [evs Hevs].
  by destruct (exec_invariant (λ _, True) evs init st) as [? _]; auto using wf_init.
Qed.

(** ** What a change does to a collection *)

Lemma apply_change_identity c l :
  Marker.identity <$> apply_change c l =
  (Marker.identity <$> l) ++ (Marker.identity <$> inserted c).
Proof.
  destruct c as [m|tempId v|]; cbn [apply_change inserted];
    unfold Marker.append;
    by rewrite ?fmap_app, ?Marker.set_address_identity, ?app_nil_r.
Qed.

Lemma apply_change_ids c l :
  Marker.ids (apply_change c l) = Marker.ids l ++ Marker.ids (inserted c).
Proof.
  destruct c as [m|tempId v|]; cbn [apply_change inserted];
    rewrite ?Marker.set_address_ids, ?app_nil_r; [|done..].
  unfold Marker.ids, Marker.append. by rewrite omap_app.
Qed.

Lemma transition_inserted st ev c st' :
  transition st ev c st' → Marker.ids (inserted c) = option_list (click_time ev).
Proof. by destruct 1. Qed.

(** A settle event for an activation of [tempId] relabels the markers with
    that identifier, or changes nothing. *)
Lemma settle_change st ev i t tempId st' :
  tasks st !! i = Some t → task_of tempId t → target ev = Some i →
  step ev st = Some st' →
  ∃ c, transition st ev c st' ∧ (c = Keep ∨ ∃ v, c = Relabel tempId v).
Proof.
  intros Hi Ht Htarget Hstep.
  assert (∃ c st1, transition st ev c st1 ∧
            (c = Keep ∨ ∃ v, c = Relabel tempId v)) as (c & st1 & Htr & Hc).
  { destruct Ht as [u|r], ev as [|i' [r'|e] now|i' outcome now|];
      simplify_eq/=; try (by rewrite Hi in Hstep);
      do 2 eexists; (split; [by econstructor|eauto]). }
  pose proof (transition_step _ _ _ _ Htr). exists c. by simplify_eq.
Qed.

(** ** The properties of the controller *)

(** C1: settling the [fetch] or the body of one activation never changes a
    marker that carries another identifier, or none: a marker at index [j]
    whose [id] is not the [tempId] captured by the resumed activation is the
    same object, at the same index, in the collection after the event,
    whatever the outcome and whatever else is in flight. *)
Theorem settle_touches_only_own st ev i t tempId st' j m :
  tasks st !! i = Some t → task_of tempId t → target ev = Some i →
  step ev st = Some st' →
  logical st !! j = Some m → Marker.id m ≠ Some tempId →
  logical st' !! j = Some m.
Proof.
  intros Hi Ht Htarget Hstep Hj Hm.
  destruct (settle_change _ _ _ _ _ _ Hi Ht Htarget Hstep)
    as (c & Htr & [->|[v ->]]); rewrite (transition_logical _ _ _ _ Htr); simpl;
    [done | by apply Marker.set_address_other].
Qed.

(** C2: a click is always enabled and is handled synchronously: when the
    handler returns, the collection the next render commits is the previous
    one followed by a marker with the clock reading as [id], the clicked
    coordinate as position and the placeholder text; one activation is
    suspended on the [fetch] of that coordinate's URL; nothing has been
    received from the network. *)
Theorem click_optimistic_insert e now st :
  ∃ st', step (Click e now) st = Some st' ∧
    logical st' = logical st ++ [Marker.tempMarker now (latlng e)] ∧
    markers (render st') = logical st' ∧
    tasks st' = tasks st ++ [AwaitFetch (url (latlng e)) (after_fetch now)].
Proof.
  eexists. split; [apply step_click|].
  by rewrite markers_render, logical_suspend, logical_issue, logical_enqueue.
Qed.

(** C3: when the body of the response settles, the markers that carry the
    activation's identifier get the text [label_of outcome] and keep their
    identifier and position: [data.display_name] when [data] has that
    property, [undefined] when [data] is an object, array or primitive
    without it, and the failure text when [data] is [null] or [undefined] or
    the body promise rejects.  The activation leaves the suspended tasks. *)
Theorem json_settled_relabels st i r tempId outcome now j m :
  tasks st !! i = Some (AwaitJson r (after_json tempId)) →
  logical st !! j = Some m → Marker.id m = Some tempId →
  ∃ st', step (JsonSettled i outcome now) st = Some st' ∧
    logical st' !! j = Some (Marker.with_text m (label_of outcome)) ∧
    tasks st' = delete i (tasks st).
Proof.
  intros Hi Hj Hm. eexists. split; [by eapply step_json_settled|].
  rewrite logical_enqueue, logical_resume, reconcile_label.
  split; [by apply Marker.set_address_hit | done].
Qed.

(** C4: when the [fetch] rejects, the [catch] block runs: the markers that
    carry the activation's identifier get the failure text and keep their
    identifier and position, the activation leaves the suspended tasks, no
    second request is issued and nothing is thrown further. *)
Theorem fetch_rejected_relabels st i u tempId e now j m :
  tasks st !! i = Some (AwaitFetch u (after_fetch tempId)) →
  logical st !! j = Some m → Marker.id m = Some tempId →
  ∃ st', step (FetchSettled i (Rejected e) now) st = Some st' ∧
    logical st' !! j =
      Some (Marker.with_text m (VString Marker.text_failed)) ∧
    tasks st' = delete i (tasks st) ∧
    requests st' = requests st ∧ unhandled st' = unhandled st.
Proof.
  intros Hi Hj Hm. eexists. split; [by eapply step_fetch_rejected|].
  rewrite logical_enqueue, logical_resume, Marker.set_failed_set_address.
  split; [by apply Marker.set_address_hit | done].
Qed.

(** C7: no rejection escapes [addNewMarker]: in every state the page can
    reach, whatever the network did, no activation has completed abruptly,
    and every suspended task is an activation of [addNewMarker] waiting at
    one of its two [await]s. *)
Theorem reachable_no_unhandled st :
  reachable st →
  unhandled st = [] ∧ Forall (λ t, ∃ tempId, task_of tempId t) (tasks st).
Proof. intros [Htasks Hun]%reachable_wf. done. Qed.

(** C9: markers are never deleted, moved or re-identified: after any
    sequence of events from a well-formed state, the identifiers and
    positions of the markers that were in the collection are the same, at
    the same indices; the collection only grows at its end. *)
Theorem exec_preserves_identity evs st st' :
  wf st → exec evs st = Some st' →
  (Marker.identity <$> logical st) `prefix_of` (Marker.identity <$> logical st').
Proof.
  intros Hwf Hexec.
  eapply (exec_invariant
    (λ s, (Marker.identity <$> logical st) `prefix_of` (Marker.identity <$> logical s)));
    [|done..].
  clear. intros s ev s' Hwf Hpre Hstep.
  destruct (step_transition _ _ _ Hwf Hstep) as [c Htr].
  rewrite (transition_logical _ _ _ _ Htr), apply_change_identity.
  etrans; [done|]. by apply prefix_app_r.
Qed.

(** C10: the identifiers held by the collection are exactly the clock
    readings of the clicks so far, in click order; hence they are pairwise
    distinct whenever no two clicks read the same clock value. *)
Theorem reachable_ids_are_click_times evs st :
  exec evs init = Some st →
  Marker.ids (logical st) = omap click_time evs ∧
  (NoDup (omap click_time evs) → NoDup (Marker.ids (logical st))).
Proof.
  intros Hexec. cut (Marker.ids (logical st) = omap click_time evs).
  { by intros ->. }
  change (omap click_time evs) with (Marker.ids (logical init) ++ omap click_time evs).
  revert Hexec. generalize wf_init. generalize init.
  induction evs as [|ev evs IH]; simpl; intros s Hwf Hexec.
  { injection Hexec as <-. by rewrite app_nil_r. }
  destruct (step ev s) as [s1|] eqn:Hstep; [|done]; simpl in Hexec.
  destruct (step_transition _ _ _ Hwf Hstep) as [c Htr].
  rewrite (IH s1) by eauto using wf_step.
  rewrite (transition_logical _ _ _ _ Htr), apply_change_ids.
  rewrite (transition_inserted _ _ _ _ Htr), <-app_assoc. f_equal.
  by destruct (click_time ev).
Qed.

(** ** Work left: every activation needs at most two settle events *)

Lemma awaits_left_pos t : 0 < awaits_left t.
Proof. destruct t; simpl; lia. Qed.

Lemma work_left_0 st : work_left st = 0 ↔ tasks st = [].
Proof. apply sum_list_pos_0, awaits_left_pos. Qed.

Lemma work_left_resume i t st :
  tasks st !! i = Some t → work_left (resume i st) + awaits_left t = work_left st.
Proof. apply sum_list_fmap_delete. Qed.

Lemma work_left_suspend t st :
  work_left (suspend t st) = work_left st + awaits_left t.
Proof.
  unfold work_left; simpl. rewrite fmap_app, sum_list_with_app; simpl. lia.
Qed.

Lemma transition_work st ev c st' :
  transition st ev c st' →
  work_left st' + (if target ev is Some _ then 1 else 0) ≤
  work_left st + (if click_time ev is Some _ then 2 else 0).
Proof.
  destruct 1 as [e now|i u tempId r now Hi|i u tempId e now Hi
                 |i r tempId outcome now Hi|]; simpl;
    rewrite ?work_left_suspend; try apply work_left_resume in Hi;
    simpl in *; unfold work_left in *; simpl in *; lia.
Qed.

(** C13: every activation terminates after at most two settle events: from a
    well-formed state, a sequence of settle events that the page accepts is
    never longer than the number of awaits its suspended tasks still have
    ahead of them (two for a task waiting on its [fetch], one for a task
    waiting on its body), and what remains of that number afterwards is
    bounded accordingly. *)
Theorem settle_terminates evs st st' :
  wf st → Forall (λ ev, is_Some (target ev)) evs → exec evs st = Some st' →
  length evs + work_left st' ≤ work_left st.
Proof.
  intros Hwf Hevs. revert st Hwf.
  induction Hevs as [|ev evs [i Hev] _ IH]; simpl; intros st Hwf Hexec.
  { by injection Hexec as <-. }
  destruct (step ev st) as [st1|] eqn:Hstep; [|done]; simpl in Hexec.
  destruct (step_transition _ _ _ Hwf Hstep) as [c Htr].
  apply transition_work in Htr. rewrite Hev in Htr.
  assert (click_time ev = None) as Hc by (by destruct ev).
  rewrite Hc in Htr. specialize (IH st1 (wf_step _ _ _ Hwf Hstep) Hexec). lia.
Qed.

Lemma settle_first_transition fo jo now st st' :
  wf st → settle_first fo jo now st = Some st' →
  wf st' ∧ work_left st' < work_left st.
Proof.
  intros Hwf Hs. unfold settle_first in Hs.
  assert (∃ ev, is_Some (target ev) ∧ step ev st = Some st') as (ev & [i Ht] & Hstep).
  { destruct (tasks st) as [|[]]; [done|eexists; split; [|done]; by eexists..]. }
  split; [by eapply wf_step|].
  destruct (step_transition _ _ _ Hwf Hstep) as [c Htr].
  apply transition_work in Htr. rewrite Ht in Htr.
  assert (click_time ev = None) as Hc by (by destruct ev).
  rewrite Hc in Htr. lia.
Qed.

Lemma settle_first_enabled fo jo now st :
  wf st → tasks st ≠ [] → is_Some (settle_first fo jo now st).
Proof.
  intros [Hwf _] Hne. unfold settle_first.
  destruct (tasks st) as [|t ts] eqn:Hts; [done|].
  apply Forall_cons in Hwf as [[tempId Ht] _].
  destruct Ht; simpl; rewrite Hts; simpl; eauto.
Qed.

(** C14: every suspended activation completes once its promises settle,
    whatever their outcomes: delivering settle events to the oldest task,
    [work_left st] events are enough to reach a state where nothing is
    suspended any more, and that state is well formed (nothing was
    thrown). *)
Theorem drain_quiesces fo jo now st :
  wf st →
  tasks (drain (work_left st) fo jo now st) = [] ∧
  wf (drain (work_left st) fo jo now st).
Proof.
  remember (work_left st) as n eqn:Hn. intros Hwf.
  assert (work_left st ≤ n) as Hle by lia. clear Hn. revert st Hwf Hle.
  induction n as [|n IH]; intros st Hwf Hle; simpl.
  { split; [apply work_left_0; lia | done]. }
  destruct (settle_first fo jo now st) as [st'|] eqn:Hs.
  - destruct (settle_first_transition _ _ _ _ _ Hwf Hs). apply IH; [done|lia].
  - split; [|done]. destruct (decide (tasks st = [])) as [|Hne]; [done|].
    destruct (settle_first_enabled fo jo now st Hwf Hne) as [? ?]. congruence.
Qed.

(** ** Requests *)

(** C19: exactly one request is issued per click, for the URL of the
    clicked coordinate, at the time of the click; no settle event and no
    render issues a request (no retry, no prefetch). *)
Theorem exec_requests evs st st' :
  wf st → exec evs st = Some st' →
  requests st' = requests st ++ (evs ≫= request_of).
Proof.
  revert st. induction evs as [|ev evs IH]; cbn [exec]; intros st Hwf Hexec.
  { injection Hexec as <-. by rewrite app_nil_r. }
  destruct (step ev st) as [st1|] eqn:Hstep; [|done]; simpl in Hexec.
  destruct (step_transition _ _ _ Hwf Hstep) as [c Htr].
  rewrite (IH st1) by eauto using wf_step.
  by rewrite (transition_requests _ _ _ _ Htr), bind_cons, app_assoc.
Qed.

(** C25: on well-formed states the executable transition function [step]
    and the rules [transition] define the same transitions: [step] accepts
    an event exactly when a rule applies, and yields the state of the
    rule. *)
Theorem step_refines_rules st ev st' :
  wf st → step ev st = Some st' ↔ ∃ c, transition st ev c st'.
Proof.
  intros Hwf. split; [by apply step_transition|].
  intros [c Htr]. by eapply transition_step.
Qed.

(** ** States up to rendering *)

#[export] Instance state_equiv_equivalence : Equivalence state_equiv.
Proof. unfold state_equiv. split; red; intuition congruence. Qed.

Lemma render_equiv st : state_equiv (render st) st.
Proof. done. Qed.

#[export] Instance enqueue_proper u :
  Proper (state_equiv ==> state_equiv) (enqueue u).
Proof.
  intros st1 st2 (Hl & Ht & Hr & Hu). unfold state_equiv.
  by rewrite !logical_enqueue, Hl.
Qed.

#[export] Instance suspend_proper t :
  Proper (state_equiv ==> state_equiv) (suspend t).
Proof.
  intros st1 st2 (Hl & Ht & Hr & Hu). unfold state_equiv; simpl.
  by rewrite !logical_suspend, Hl, Ht.
Qed.

#[export] Instance issue_proper u :
  Proper (state_equiv ==> state_equiv) (issue u).
Proof.
  intros st1 st2 (Hl & Ht & Hr & Hu). unfold state_equiv; simpl.
  by rewrite !logical_issue, Hl, Hr.
Qed.

#[export] Instance reject_proper e :
  Proper (state_equiv ==> state_equiv) (reject e).
Proof.
  intros st1 st2 (Hl & Ht & Hr & Hu). unfold state_equiv; simpl.
  by rewrite Hu; repeat split.
Qed.

#[export] Instance resume_proper i :
  Proper (state_equiv ==> state_equiv) (resume i).
Proof.
  intros st1 st2 (Hl & Ht & Hr & Hu). unfold state_equiv; simpl.
  by rewrite !logical_resume, Hl, Ht.
Qed.

(** An activation cannot tell how much of the queue has been committed. *)
#[export] Instance run_proper now p :
  Proper (state_equiv ==> state_equiv) (run now p).
Proof.
  induction p as [a|e|X ev k IH]; intros st1 st2 Hst; simpl;
    [done|by apply reject_proper|].
  destruct ev; [by apply IH|by apply IH, enqueue_proper|..];
    by apply suspend_proper; try apply issue_proper.
Qed.

Lemma step_equiv ev st1 st2 :
  state_equiv st1 st2 → option_Forall2 state_equiv (step ev st1) (step ev st2).
Proof.
  intros Hst. pose proof Hst as (_ & Ht & _).
  destruct ev as [e now|i o now|i o now|]; cbn [step]; rewrite <-?Ht;
    [|destruct (tasks st1 !! i) as [[]|]..|]; constructor;
    try (by apply run_proper, resume_proper).
  - by apply run_proper.
  - by rewrite !render_equiv.
Qed.

Lemma exec_app evs1 evs2 st : exec (evs1 ++ evs2) st = exec evs1 st ≫= exec evs2.
Proof.
  revert st. induction evs1 as [|ev evs1 IH]; intros st; simpl; [done|].
  destruct (step ev st); simpl; auto.
Qed.

Lemma exec_equiv evs st1 st2 :
  state_equiv st1 st2 → option_Forall2 state_equiv (exec evs st1) (exec evs st2).
Proof.
  revert st1 st2. induction evs as [|ev evs IH]; intros st1 st2 Hst; simpl.
  { by constructor. }
  destruct (step_equiv ev _ _ Hst); simpl; [auto|constructor].
Qed.

(** C15: React may render at any moment without changing what the page
    computes: inserting a render anywhere in a sequence of events changes
    neither whether the sequence is accepted nor the resulting logical
    collection, suspended tasks, issued requests and unhandled rejections.
    Batching of [setMarkers] updates is therefore unobservable in the
    final collection. *)
Theorem render_transparent evs1 evs2 st :
  option_Forall2 state_equiv
    (exec (evs1 ++ Render :: evs2) st) (exec (evs1 ++ evs2) st).
Proof.
  rewrite !exec_app. destruct (exec evs1 st) as [st1|]; simpl; [|constructor].
  apply exec_equiv, render_equiv.
Qed.

(** C12: completions may arrive in any order: when the bodies awaited by
    two activations with distinct identifiers settle, delivering the two
    settle events in either order is accepted and leads to equivalent
    states: the same logical collection, the same suspended tasks, the
    same requests. *)
Theorem settle_commute st i j r1 r2 tempId1 tempId2 o1 o2 n1 n2 :
  i < j → tempId1 ≠ tempId2 →
  tasks st !! i = Some (AwaitJson r1 (after_json tempId1)) →
  tasks st !! j = Some (AwaitJson r2 (after_json tempId2)) →
  ∃ sa sb,
    exec [JsonSettled i o1 n1; JsonSettled (j - 1) o2 n2] st = Some sa ∧
    exec [JsonSettled j o2 n2; JsonSettled i o1 n1] st = Some sb ∧
    state_equiv sa sb.
Proof.
  intros Hij Hne Hi Hj.
  exists (enqueue (reconcile tempId2 o2)
            (resume (j - 1) (enqueue (reconcile tempId1 o1) (resume i st)))),
         (enqueue (reconcile tempId1 o1)
            (resume i (enqueue (reconcile tempId2 o2) (resume j st)))).
  split; [|split]; cbn [exec].
  - rewrite (step_json_settled _ _ _ o1 n1 _ Hi). cbn [mbind option_bind].
    erewrite step_json_settled; [done|]. simpl.
    rewrite list_lookup_delete_ge by lia. by replace (S (j - 1)) with j by lia.
  - rewrite (step_json_settled _ _ _ o2 n2 _ Hj). cbn [mbind option_bind].
    erewrite step_json_settled; [done|]. simpl. by rewrite list_lookup_delete_lt.
  - unfold state_equiv; simpl.
    rewrite !logical_enqueue, !logical_resume, !logical_enqueue, !logical_resume.
    rewrite !reconcile_label, (delete_delete_lt _ i j) by done.
    split; [|done]. by apply Marker.set_address_comm, not_eq_sym.
Qed.

(** ** The label an outcome produces, shape by shape *)

Lemma label_of_object fields :
  label_of (Fulfilled (VObject fields)) = lookup_field "display_name" fields.
Proof. done. Qed.

Lemma label_of_nullish data :
  data = VNull ∨ data = VUndefined →
  label_of (Fulfilled data) = VString Marker.text_failed.
Proof. by intros [-> | ->]. Qed.

Lemma label_of_primitive data :
  match data with
  | VBool _ | VNumber _ | VString _ | VArray _ => True
  | _ => False
  end →
  label_of (Fulfilled data) = VUndefined.
Proof. by destruct data. Qed.

Lemma label_of_rejected e : label_of (Rejected e) = VString Marker.text_failed.
Proof. done. Qed.

(** C20: a body that is an object without a [display_name] property (such
    as [{"error": "Unable to geocode"}]) is not treated as a failure: the
    label becomes [undefined], not the failure text. *)
Theorem missing_display_name_is_undefined fields :
  "display_name" ∉ fields.*1 →
  label_of (Fulfilled (VObject fields)) = VUndefined ∧
  label_of (Fulfilled (VObject fields)) ≠ VString Marker.text_failed.
Proof.
  intros Hf. by rewrite label_of_object, lookup_field_absent.
Qed.

(** C21: the HTTP status of the response is never consulted: whatever
    response (in particular one with an error status) fulfils the [fetch],
    the activation goes on to await its body, and when the body then
    fulfils with [data], the markers with the activation's identifier are
    relabelled with [label_of (Fulfilled data)], exactly as for a
    response with status 200. *)
Theorem http_status_ignored st i u tempId r data n1 n2 :
  tasks st !! i = Some (AwaitFetch u (after_fetch tempId)) →
  ∃ st', exec [FetchSettled i (Fulfilled r) n1;
               JsonSettled (length (tasks st) - 1) (Fulfilled data) n2] st = Some st' ∧
    logical st' =
      Marker.set_address tempId (label_of (Fulfilled data)) (logical st) ∧
    tasks st' = delete i (tasks st).
Proof.
  intros Hi. eexists. cbn [exec].
  rewrite (step_fetch_fulfilled _ _ _ r n1 _ Hi). cbn [mbind option_bind].
  assert (length (delete i (tasks st)) = length (tasks st) - 1) as Hlen
    by (apply length_delete; eauto).
  erewrite step_json_settled.
  - split; [done|]. rewrite logical_enqueue, reconcile_label. split; [done|].
    simpl. by rewrite <-Hlen, delete_snoc.
  - simpl. rewrite <-Hlen. by apply list_lookup_middle.
Qed.

(** ** One activation, as a program *)

Lemma on_error_safe tempId e : ¬ may_throw (on_error tempId e).
Proof. by intros [[] ?]. Qed.

(** C26: an activation of [addNewMarker] cannot complete abruptly, whatever
    the clock, the network and the parser answer, and it performs at most
    five effects (reading the clock, the insertion, [fetch], [json] and one
    reconciliation, from the [try] block or from the [catch] block, never
    both); five is reached on the success path. *)
Theorem addNewMarker_total latlng :
  ¬ may_throw (addNewMarker latlng) ∧
  depth (addNewMarker latlng) 5 ∧ ¬ depth (addNewMarker latlng) 4.
Proof.
  split; [|split].
  - intros (tempId & [] & Hthrow). revert Hthrow.
    apply try_catch_safe, on_error_safe.
  - intros tempId [] [r|e]; simpl; [|by intros []].
    intros [data|e]; simpl; [|by intros []].
    destruct (get_property data "display_name"); simpl; by intros [].
  - intros Hd.
    exact (Hd 0%Z tt (Fulfilled (Response 200)) (Fulfilled (VObject []))).
Qed.

End controller.
