(* ===== verification/Spec.v ===== *)
(** * The contract of the marker controller, and that the page implements it

    The contract ([Abstract]) is the state-tagged model the specification
    gives for the optimistic update: a marker is [Pending], [Resolved] with
    a label, or [Failed]; a click with a fresh identifier appends a
    [Pending] marker and puts its request in flight; the settling of a
    request in flight gives the markers with its identifier their terminal
    status.  On this model the invariants of the specification hold by rule
    induction: identifiers are unique, and a marker is [Pending] exactly
    while its request is in flight, so no marker gets a second terminal
    update.

    The page of [Controller] refines the contract when the clock never
    gives two clicks the same reading: [refines] relates a state of the page
    to a state of the contract (the logical collection is the contract's
    markers with their labels written out, the suspended activations are the
    requests in flight), and every transition of the page is matched by at
    most one step of the contract. *)

From Stdlib Require Import Ascii String.
From stdpp Require Import relations.
From S2P Require Import Prelude JsValue Markers Async Controller.

#[local] Set Warnings "-inexact-float,-clear-no-such-hyp".

(** ** Definitions *)

Module Abstract.

(** The status of a marker's label. *)
Inductive status :=
| Pending
| Resolved (address : value)
| Failed.

Record marker := Marker {
  id : option Z;
  position : float * float;
  label : status;
}.

(** The markers held, oldest first, and the identifiers whose request has
    not settled. *)
Record t := State {
  markers : list marker;
  in_flight : list Z;
}.

Definition ids (s : t) : list Z := omap id (markers s).

(** The session starts with one marker that no request belongs to. *)
Definition initial : t :=
  {| markers := [ {| id := None; position := (35.6586%float, 139.7454%float);
                     label := Resolved (VString Marker.text_initial) |} ];
     in_flight := [] |}.

(** A click: a [Pending] marker is appended and its request is in flight. *)
Definition insert (i : Z) (pos : float * float) (s : t) : t :=
  {| markers := markers s ++ [ {| id := Some i; position := pos; label := Pending |} ];
     in_flight := i :: in_flight s |}.

(** The reconciliation message for [i]: the markers with that identifier
    get the status [l]; no marker has it, nothing changes. *)
Definition relabel (i : Z) (l : status) (ms : list marker) : list marker :=
  (λ m, if bool_decide (id m = Some i)
        then {| id := id m; position := position m; label := l |} else m) <$> ms.

(** The steps of the contract. *)
Inductive step (s : t) : t → Prop :=
| step_click i pos :
    i ∉ ids s → step s (insert i pos s)
| step_settle i l rest :
    l ≠ Pending → in_flight s ≡ₚ i :: rest →
    step s {| markers := relabel i l (markers s); in_flight := rest |}.

(** The invariants of the specification: identifiers are unique, a request
    is in flight at most once and only for a marker held, and a marker with
    an identifier is [Pending] exactly while its request is in flight. *)
Definition inv (s : t) : Prop :=
  NoDup (ids s) ∧ NoDup (in_flight s) ∧ in_flight s ⊆ ids s ∧
  ∀ m i, m ∈ markers s → id m = Some i → label m = Pending ↔ i ∈ in_flight s.

(** The text a status is shown as. *)
Definition text_of (l : status) : value :=
  match l with
  | Pending => VString Marker.text_pending
  | Resolved address => address
  | Failed => VString Marker.text_failed
  end.

(** The status the outcome of [response.json()] gives. *)
Definition status_of (outcome : settled value) : status :=
  match outcome with
  | Fulfilled data =>
      match address_of data with
      | Some address => Resolved address
      | None => Failed
      end
  | Rejected _ => Failed
  end.

(** The marker object of the page for a marker of the contract. *)
Definition concrete (m : marker) : Marker.t :=
  {| Marker.id := id m; Marker.lat := (position m).1;
     Marker.lng := (position m).2; Marker.text := text_of (label m) |}.

End Abstract.

(** [refines st s]: the page state [st] implements the contract state [s]. *)
Definition refines (st : state) (s : Abstract.t) : Prop :=
  logical st = Abstract.concrete <$> Abstract.markers s ∧
  ∃ ids, Forall2 task_of ids (tasks st) ∧ ids ≡ₚ Abstract.in_flight s.

(** [idle tempId st]: no suspended activation of [st] captured [tempId]. *)
Definition idle (tempId : Z) (st : state) : Prop :=
  Forall (λ t, ¬ task_of tempId t) (tasks st).

(** ** The contract keeps the invariants of the specification *)

Module AbstractFacts.
Import Abstract.

Lemma relabel_ids i l ms : omap id (relabel i l ms) = omap id ms.
Proof.
  unfold relabel. induction ms as [|m ms IH]; [done|]. csimpl. rewrite IH.
  by case_bool_decide.
Qed.

Lemma elem_of_relabel i l ms m' :
  m' ∈ relabel i l ms →
  ∃ m, m ∈ ms ∧ id m' = id m ∧
    if bool_decide (id m = Some i) then label m' = l else m' = m.
Proof.
  intros (m & -> & Hm)%list_elem_of_fmap. exists m. split; [done|].
  by case_bool_decide.
Qed.

Lemma elem_of_ids s i : i ∈ ids s ↔ ∃ m, m ∈ markers s ∧ id m = Some i.
Proof. apply list_elem_of_omap. Qed.

Lemma ids_insert i pos s : ids (insert i pos s) = ids s ++ [i].
Proof. unfold ids, insert; simpl. by rewrite omap_app. Qed.

Lemma inv_initial : inv initial.
Proof.
  split; [constructor|]. split; [constructor|].
  split; [by intros ? ?%elem_of_nil|].
  by intros m i ->%list_elem_of_singleton.
Qed.

Lemma inv_click i pos s : inv s → i ∉ ids s → inv (insert i pos s).
Proof.
  intros (Hids & Hfl & Hsub & Hpend) Hi. unfold inv. rewrite ids_insert.
  assert (i ∉ in_flight s) as Hi' by (intros ?; by apply Hi, Hsub).
  split; [apply NoDup_app; split_and!; [done| |apply NoDup_singleton]|].
  { by intros j Hj ->%list_elem_of_singleton. }
  split; [by apply NoDup_cons|]. split.
  { intros j [->|Hj%Hsub]%elem_of_cons; apply elem_of_app; auto.
    right. by apply list_elem_of_singleton. }
  intros m j [Hm| ->%list_elem_of_singleton]%elem_of_app Hj; simpl in *.
  - rewrite (Hpend m j Hm Hj), elem_of_cons.
    assert (j ≠ i) by (intros ->; apply Hi, elem_of_ids; eauto). naive_solver.
  - injection Hj as <-. split; [left|done].
Qed.

Lemma inv_settle i l rest s :
  inv s → l ≠ Pending → in_flight s ≡ₚ i :: rest →
  inv {| markers := relabel i l (markers s); in_flight := rest |}.
Proof.
  intros (Hids & Hfl & Hsub & Hpend) Hl Hperm. rewrite Hperm in Hfl.
  apply NoDup_cons in Hfl as [Hi Hrest].
  assert (∀ j, j ∈ in_flight s ↔ j = i ∨ j ∈ rest) as Hin
    by (intros j; by rewrite Hperm, elem_of_cons).
  unfold inv, ids; simpl. rewrite relabel_ids. split; [done|]. split; [done|]. split.
  { intros j Hj. apply Hsub, Hin. by right. }
  intros m' j (m & Hm & Hid & Hcase)%elem_of_relabel Hj. rewrite Hid in Hj.
  case_bool_decide as Hmi.
  - rewrite Hcase. assert (j = i) as -> by congruence. naive_solver.
  - subst m'. rewrite (Hpend m j Hm Hj), Hin.
    assert (j ≠ i) by congruence. naive_solver.
Qed.

Lemma inv_step s s' : inv s → step s s' → inv s'.
Proof. destruct 2; eauto using inv_click, inv_settle. Qed.

Lemma inv_steps s s' : inv s → rtc step s s' → inv s'.
Proof. induction 2; eauto using inv_step. Qed.

End AbstractFacts.

(** ** What the relation needs of the page *)

Section refinement.
Context `{!NumberToString}.
Implicit Types (st : state) (s : Abstract.t) (t : task) (tempId : Z).

(** An updater of the [catch] block determines its identifier. *)
Lemma set_failed_inj tempId1 tempId2 :
  Marker.set_failed tempId1 = Marker.set_failed tempId2 → tempId1 = tempId2.
Proof.
  intros Heq.
  apply (f_equal (λ u, u [Marker.tempMarker tempId1 (LatLng.mk 0 0)])) in Heq.
  unfold Marker.set_failed, Marker.set_address, Marker.has_id in Heq.
  cbn in Heq. rewrite bool_decide_eq_true_2 in Heq by done.
  case_bool_decide as Hid; [congruence|discriminate].
Qed.

Lemma after_fetch_inj tempId1 tempId2 :
  after_fetch tempId1 = after_fetch tempId2 → tempId1 = tempId2.
Proof.
  intros Hk. apply set_failed_inj.
  apply (f_equal (λ k, queue (run 0 (k (Rejected TypeError)) init))) in Hk.
  rewrite !run_after_fetch_rejected in Hk. by simplify_eq/=.
Qed.

Lemma after_json_inj tempId1 tempId2 :
  after_json tempId1 = after_json tempId2 → tempId1 = tempId2.
Proof.
  intros Hk. apply set_failed_inj.
  apply (f_equal (λ k, queue (run 0 (k (Rejected TypeError)) init))) in Hk.
  rewrite !run_after_json in Hk. by simplify_eq/=.
Qed.

(** A suspended activation determines the identifier it captured. *)
Lemma task_of_inj tempId1 tempId2 t :
  task_of tempId1 t → task_of tempId2 t → tempId1 = tempId2.
Proof.
  destruct 1; inversion 1; eauto using after_fetch_inj, after_json_inj, eq_sym.
Qed.

Lemma concrete_relabel tempId l ms :
  Marker.set_address tempId (Abstract.text_of l) (Abstract.concrete <$> ms) =
  Abstract.concrete <$> Abstract.relabel tempId l ms.
Proof.
  unfold Marker.set_address, Abstract.relabel. rewrite <-!list_fmap_compose.
  apply list_fmap_ext; intros j m _; simpl. unfold Marker.has_id; simpl.
  by case_bool_decide.
Qed.

Lemma text_of_status_of outcome :
  Abstract.text_of (Abstract.status_of outcome) = label_of outcome.
Proof.
  destruct outcome as [data|e]; [|done]; simpl. by destruct (address_of data).
Qed.

Lemma status_of_terminal outcome : Abstract.status_of outcome ≠ Abstract.Pending.
Proof. destruct outcome as [data|e]; [|done]; simpl. by destruct (address_of data). Qed.

Lemma refines_init : refines init Abstract.initial.
Proof. split; [done|]. exists []. by split. Qed.

(** The identifier the contract has in flight for the task at index [i]. *)
Lemma refines_lookup st s i t tempId :
  refines st s → tasks st !! i = Some t → task_of tempId t →
  ∃ ids, Forall2 task_of ids (tasks st) ∧ ids ≡ₚ Abstract.in_flight s ∧
    ids !! i = Some tempId.
Proof.
  intros (_ & ids & Hids & Hperm) Hi Ht. exists ids. split; [done|]. split; [done|].
  destruct (Forall2_lookup_r _ _ _ _ _ Hids Hi) as (tempId' & Hi' & Ht').
  by rewrite (task_of_inj _ _ _ Ht Ht').
Qed.

(** ** Every transition of the page is a step of the contract, or none *)

Lemma refines_click st s e now :
  refines st s →
  refines (suspend (AwaitFetch (url (latlng e)) (after_fetch now))
             (issue (url (latlng e))
                (enqueue (Marker.append (Marker.tempMarker now (latlng e))) st)))
    (Abstract.insert now (LatLng.lat (latlng e), LatLng.lng (latlng e)) s).
Proof.
  intros (Hm & ids & Hids & Hperm). split.
  - rewrite logical_suspend, logical_issue, logical_enqueue, Hm. simpl.
    by rewrite fmap_app.
  - exists (ids ++ [now]). split; simpl.
    + apply Forall2_app; [done|]. repeat constructor.
    + by rewrite <-Permutation_cons_append, Hperm.
Qed.

Lemma refines_fetch_fulfilled st s i u tempId r :
  refines st s → tasks st !! i = Some (AwaitFetch u (after_fetch tempId)) →
  refines (suspend (AwaitJson r (after_json tempId)) (resume i st)) s.
Proof.
  intros Href Hi.
  destruct (refines_lookup _ _ _ _ _ Href Hi (task_of_fetch _ _))
    as (ids & Hids & Hperm & Hid).
  destruct Href as [Hm _]. split; [done|].
  exists (delete i ids ++ [tempId]). split; simpl.
  - apply Forall2_app; [by apply Forall2_delete|]. repeat constructor.
  - by rewrite <-Permutation_cons_append, <-delete_Permutation.
Qed.

Lemma refines_relabel st st' s i t tempId l :
  refines st s → tasks st !! i = Some t → task_of tempId t →
  l ≠ Abstract.Pending →
  logical st' = Marker.set_address tempId (Abstract.text_of l) (logical st) →
  tasks st' = delete i (tasks st) →
  ∃ s', Abstract.step s s' ∧ refines st' s' ∧ Abstract.ids s' = Abstract.ids s.
Proof.
  intros Href Hi Ht Hl Hlog Htasks.
  destruct (refines_lookup _ _ _ _ _ Href Hi Ht) as (ids & Hids & Hperm & Hid).
  destruct Href as [Hm _].
  exists {| Abstract.markers := Abstract.relabel tempId l (Abstract.markers s);
            Abstract.in_flight := delete i ids |}.
  split; [|split].
  - apply Abstract.step_settle; [done|]. by rewrite <-Hperm, <-delete_Permutation.
  - split; simpl; [by rewrite Hlog, Hm, concrete_relabel|].
    exists (delete i ids). rewrite Htasks. split; [by apply Forall2_delete|done].
  - apply AbstractFacts.relabel_ids.
Qed.

Lemma refines_transition st ev c st' s :
  refines st s → transition st ev c st' →
  (∀ now, click_time ev = Some now → now ∉ Abstract.ids s) →
  ∃ s', rtc Abstract.step s s' ∧ refines st' s' ∧
    Abstract.ids s' = Abstract.ids s ++ option_list (click_time ev).
Proof.
  intros Href Htr Hfresh.
  destruct Htr as [e now|i u tempId r now Hi|i u tempId e now Hi
                   |i r tempId outcome now Hi|]; simpl; rewrite ?app_nil_r.
  - eexists. split; [apply rtc_once, Abstract.step_click; eauto|].
    split; [by apply refines_click | apply AbstractFacts.ids_insert].
  - exists s. split; [done|]. split; [by eapply refines_fetch_fulfilled|done].
  - destruct (refines_relabel st (enqueue (Marker.set_failed tempId) (resume i st))
                s i _ tempId Abstract.Failed Href Hi (task_of_fetch _ _))
      as (s' & Hstep & Href' & Hids'); [done|by rewrite logical_enqueue|done|].
    exists s'. eauto using rtc_once.
  - destruct (refines_relabel st (enqueue (reconcile tempId outcome) (resume i st))
                s i _ tempId (Abstract.status_of outcome) Href Hi (task_of_json _ _))
      as (s' & Hstep & Href' & Hids'); [apply status_of_terminal| |done|].
    { by rewrite logical_enqueue, reconcile_label, text_of_status_of. }
    exists s'. eauto using rtc_once.
  - exists s. split; [done|]. by destruct Href.
Qed.

Lemma refines_exec evs st st' s :
  wf st → refines st s → NoDup (Abstract.ids s ++ omap click_time evs) →
  exec evs st = Some st' →
  ∃ s', rtc Abstract.step s s' ∧ refines st' s'.
Proof.
  revert st s. induction evs as [|ev evs IH]; cbn [exec]; intros st s Hwf Href Hnd.
  { intros [= <-]. by exists s. }
  destruct (step ev st) as [st1|] eqn:Hstep; [|done]. cbn [mbind option_bind].
  destruct (step_transition _ _ _ Hwf Hstep) as [c Htr]. intros Hexec.
  assert (omap click_time (ev :: evs) =
          option_list (click_time ev) ++ omap click_time evs) as Hev
    by (csimpl; by destruct (click_time ev)).
  rewrite Hev in Hnd.
  destruct (refines_transition _ _ _ _ _ Href Htr) as (s1 & Hs1 & Href1 & Hids1).
  { intros now Hnow. rewrite Hnow in Hnd. apply NoDup_app in Hnd as (_ & Hnd & _).
    intros Hin. apply (Hnd _ Hin). left. }
  destruct (IH st1 s1) as (s' & Hs' & Href'); eauto using wf_step.
  { by rewrite Hids1, <-app_assoc. }
  exists s'. split; [by etrans|done].
Qed.

(** ** The refinement theorem *)

(** C5: the page implements its contract when the clock never gives two
    clicks the same reading.  Every state the page reaches from its initial
    state is related to a state the contract reaches from its own: the
    collection the next render commits is the contract's list of markers
    with each status written out as its text, and the suspended activations
    are the requests the contract has in flight.  That state of the
    contract satisfies the invariants of the specification: identifiers are
    unique, and a marker is pending exactly while its request is in
    flight. *)
Theorem page_refines_contract evs st :
  NoDup (omap click_time evs) → exec evs init = Some st →
  ∃ s, rtc Abstract.step Abstract.initial s ∧ refines st s ∧ Abstract.inv s.
Proof.
  intros Hnd Hexec.
  destruct (refines_exec evs init st Abstract.initial) as (s & Hs & Href);
    auto using wf_init, refines_init.
  exists s. eauto using AbstractFacts.inv_steps, AbstractFacts.inv_initial.
Qed.

(** C11: a marker shows the placeholder for as long as its request has not
    settled.  When the clock never gives two clicks the same reading, in
    every state the page reaches, a marker whose identifier is the one
    captured by a suspended activation still has the placeholder text: no
    other activation has written to it. *)
Theorem pending_while_in_flight evs st j m tempId t :
  NoDup (omap click_time evs) → exec evs init = Some st →
  logical st !! j = Some m → Marker.id m = Some tempId →
  t ∈ tasks st → task_of tempId t →
  Marker.text m = VString Marker.text_pending.
Proof.
  intros Hnd Hexec Hj Hid [i Hi]%list_elem_of_lookup_1 Ht.
  destruct (refines_exec evs init st Abstract.initial) as (s & Hs & Href);
    auto using wf_init, refines_init.
  destruct (AbstractFacts.inv_steps _ _ AbstractFacts.inv_initial Hs)
    as (_ & _ & _ & Hpend).
  destruct (refines_lookup _ _ _ _ _ Href Hi Ht) as (ids & _ & Hperm & Hids).
  destruct Href as [Hlog _]. rewrite Hlog, list_lookup_fmap in Hj.
  destruct (Abstract.markers s !! j) as [am|] eqn:Ham; [|done].
  injection Hj as <-. simpl in *.
  rewrite (proj2 (Hpend am tempId (list_elem_of_lookup_2 _ _ _ Ham) Hid)); [done|].
  rewrite <-Hperm. by eapply list_elem_of_lookup_2.
Qed.

(** ** A settled label is final *)

Lemma idle_transition tempId st ev c st' :
  transition st ev c st' → click_time ev ≠ Some tempId → idle tempId st →
  idle tempId st' ∧
  ∀ j m, logical st !! j = Some m → Marker.id m = Some tempId →
    logical st' !! j = Some m.
Proof.
  intros Htr Hclick Hidle. rewrite (transition_logical _ _ _ _ Htr).
  assert (∀ i t, tasks st !! i = Some t → ¬ task_of tempId t) as Hno
    by (intros i t Hi; by eapply Forall_lookup_1 in Hidle).
  destruct Htr as [e now|i u id' r now Hi|i u id' e now Hi
                   |i r id' outcome now Hi|]; unfold idle; simpl.
  - split; [|intros j m Hj _; by apply lookup_app_l_Some].
    apply Forall_app; split; [done|]. apply Forall_singleton.
    intros Ht. apply Hclick; simpl. f_equal.
    eapply task_of_inj; [constructor|done].
  - split; [|done]. apply Forall_app; split; [by apply Forall_delete|].
    apply Forall_singleton. intros Ht. apply (Hno _ _ Hi).
    rewrite (task_of_inj _ _ _ Ht (task_of_json _ _)). constructor.
  - split; [by apply Forall_delete|]. intros j m Hj Hm.
    apply Marker.set_address_other; [done|]. rewrite Hm. intros [= ->].
    apply (Hno _ _ Hi). constructor.
  - split; [by apply Forall_delete|]. intros j m Hj Hm.
    apply Marker.set_address_other; [done|]. rewrite Hm. intros [= ->].
    apply (Hno _ _ Hi). constructor.
  - done.
Qed.

(** C8: no marker receives a second terminal update.  Once the activation
    that captured [tempId] has completed (no suspended activation holds
    [tempId]), the markers with that identifier are never written again,
    whatever settles afterwards, as long as no later click reads [tempId]
    from the clock again. *)
Theorem settled_label_is_final evs st st' tempId j m :
  wf st → idle tempId st → tempId ∉ omap click_time evs →
  exec evs st = Some st' →
  logical st !! j = Some m → Marker.id m = Some tempId →
  logical st' !! j = Some m.
Proof.
  revert st. induction evs as [|ev evs IH]; cbn [exec]; intros st Hwf Hidle Hev.
  { by intros [= <-]. }
  destruct (step ev st) as [st1|] eqn:Hstep; [|done]. cbn [mbind option_bind].
  destruct (step_transition _ _ _ Hwf Hstep) as [c Htr]. intros Hexec Hj Hm.
  destruct (idle_transition tempId _ _ _ _ Htr) as [Hidle1 Hkeep]; [|done|].
  { intros Hc. apply Hev. csimpl. rewrite Hc. left. }
  apply (IH st1); eauto using wf_step.
  intros Hin. apply Hev. csimpl. destruct (click_time ev); [by right|done].
Qed.

End refinement.
