(* ===== verification/NumberFormat.v ===== *)
(** * Rendering numbers: [Number::toString] and [toFixed]

    [src/src/App.jsx] turns numbers into text in two places: the template
    literal of line 59 renders [latlng.lat] and [latlng.lng] into the request
    URL with the language's [Number::toString], and the popup of line 92
    shows [markers.lat.toFixed(4)] and [markers.lng.toFixed(4)].  Both are
    defined here on the exact value of the binary64 number, [m * 2^e] as
    [Prim2SF] gives it, with integer arithmetic only.

    [to_string] follows ECMA-262 6.1.6.1.20: the shortest decimal digit
    string [s] of length [k] and the exponent [n] such that [s * 10^(n-k)]
    rounds to the number, the closest such decimal when there are several,
    laid out in positional or exponential notation by the value of [n].
    [toFixed] follows ECMA-262 21.1.3.3: the integer [n] closest to
    [x * 10^f], the larger one on a tie, laid out with [f] fraction digits.

    [decade] locates the power of ten above the number from the bit length
    and checks its own answer, falling back to the linear search
    [decade_ref]; [decade_ref] is the reference definition. *)

From Stdlib Require Import Ascii String.
From S2P Require Import Prelude Controller.

#[local] Set Warnings "-inexact-float".
#[local] Open Scope Z_scope.

(** ** Definitions *)

(** The comparison of the decimal [s * 10^p] with the binary [a * 2^b]. *)
Definition cmp_dec_bin (s p a b : Z) : comparison :=
  (s * 10 ^ Z.max p 0 * 2 ^ Z.max (- b) 0 ?=
   a * 2 ^ Z.max b 0 * 10 ^ Z.max (- p) 0).

(** The lower end of the interval of reals that round to [m * 2^e], as a
    binary [a * 2^b]: halfway to the preceding number, which is closer when
    [m] is the smallest mantissa of a binade. *)
Definition lower_bound (m e : Z) : Z * Z :=
  if bool_decide (m = 2 ^ 52 ∧ -1074 < e) then (4 * m - 1, e - 2)
  else (2 * m - 1, e - 1).

(** The upper end of that interval: halfway to the following number. *)
Definition upper_bound (m e : Z) : Z * Z := (2 * m + 1, e - 1).

(** Whether the decimal [s * 10^p] rounds to [m * 2^e] (to nearest, ties to
    even: the ends of the interval belong to it when [m] is even). *)
Definition rounds_to (m e s p : Z) : bool :=
  let lo := lower_bound m e in
  let hi := upper_bound m e in
  match cmp_dec_bin s p lo.1 lo.2, cmp_dec_bin s p hi.1 hi.2 with
  | Gt, Lt => true
  | Eq, Lt | Gt, Eq => Z.even m
  | _, _ => false
  end.

(** Whether [m * 2^e < 10^n]. *)
Definition below_pow10 (m e n : Z) : bool :=
  if cmp_dec_bin 1 n m e is Gt then true else false.

(** The least [n' ≥ n] with [m * 2^e < 10^n'], looking at most [fuel]
    exponents ahead. *)
Fixpoint find_decade (fuel : nat) (m e n : Z) : Z :=
  match fuel with
  | O => n
  | S fuel => if below_pow10 m e n then n else find_decade fuel m e (n + 1)
  end.

(** The [n] with [10^(n-1) ≤ m * 2^e < 10^n], by linear search over the
    range of binary64. *)
Definition decade_ref (m e : Z) : Z := find_decade 640 m e (-323).

(** The same, started from an estimate by the bit length of the number and
    checked. *)
Definition decade (m e : Z) : Z :=
  let bits := e + Z.log2 m in
  let start := if bool_decide (0 ≤ bits) then (bits * 30102) `div` 100000
               else (bits * 30103) `div` 100000 in
  let n := find_decade 4 m e start in
  if below_pow10 m e n && negb (below_pow10 m e (n - 1)) then n
  else decade_ref m e.

(** [floor (m * 2^e / 10^p)]. *)
Definition floor_scaled (m e p : Z) : Z :=
  (m * 2 ^ Z.max e 0 * 10 ^ Z.max (- p) 0)
    `div` (2 ^ Z.max (- e) 0 * 10 ^ Z.max p 0).

(** The [k]-digit decimal [s * 10^(n-k)] that rounds to [m * 2^e], if there
    is one: the closest of the two multiples of [10^(n-k)] around the
    number, the even one on a tie. *)
Definition candidate (m e n : Z) (k : nat) : option Z :=
  let p := n - Z.of_nat k in
  let s := floor_scaled m e p in
  match rounds_to m e s p, rounds_to m e (s + 1) p with
  | false, false => None
  | true, false => Some s
  | false, true => Some (s + 1)
  | true, true =>
      match cmp_dec_bin (2 * s + 1) p (2 * m) e with
      | Gt => Some s
      | Lt => Some (s + 1)
      | Eq => Some (if Z.even s then s else s + 1)
      end
  end.

(** The shortest digits: [(s, k, n)] for the least [k] from [k] on that has
    a candidate; [fuel] bounds the lengths tried. *)
Fixpoint shortest (fuel : nat) (m e n : Z) (k : nat) : Z * nat * Z :=
  match fuel with
  | O => (floor_scaled m e (n - Z.of_nat k), k, n)
  | S fuel =>
      match candidate m e n k with
      | Some s => if bool_decide (s = 10 ^ Z.of_nat k) then (1, 1%nat, n + 1) else (s, k, n)
      | None => shortest fuel m e n (S k)
      end
  end.

(** The digits, their number and the decimal exponent of [m * 2^e]
    (seventeen digits identify every binary64 number). *)
Definition shortest_digits (m e : Z) : Z * nat * Z :=
  shortest 17 m e (decade m e) 1.

(** The character of a decimal digit. *)
Definition digit_char (d : Z) : ascii := ascii_of_nat (48 + Z.to_nat d).

(** The [width] least significant decimal digits of [n], most significant
    first. *)
Fixpoint digits_of (width : nat) (n : Z) : list ascii :=
  match width with
  | O => []
  | S width => digits_of width (n `div` 10) ++ [digit_char (n `mod` 10)]
  end.

(** Drop leading zeros while more than [keep] characters remain. *)
Fixpoint strip_zeros (keep : nat) (l : list ascii) : list ascii :=
  match l with
  | "0"%char :: l' =>
      if bool_decide (keep < length l)%nat then strip_zeros keep l' else l
  | _ => l
  end.

(** The decimal representation of [0 ≤ n < 10^width], with at least [keep]
    digits. *)
Definition decimal (keep width : nat) (n : Z) : list ascii :=
  strip_zeros keep (digits_of width n).

(** The layout of the digits [s] (of length [k]) with decimal exponent [n]
    (ECMA-262 6.1.6.1.20, steps 7 to 10). *)
Definition layout (s : Z) (k : nat) (n : Z) : list ascii :=
  let ds := digits_of k s in
  if bool_decide (Z.of_nat k ≤ n ≤ 21) then
    ds ++ replicate (Z.to_nat (n - Z.of_nat k)) "0"%char
  else if bool_decide (0 < n ≤ 21) then
    take (Z.to_nat n) ds ++ "."%char :: drop (Z.to_nat n) ds
  else if bool_decide (-6 < n ≤ 0) then
    "0"%char :: "."%char :: replicate (Z.to_nat (- n)) "0"%char ++ ds
  else
    let sign := if bool_decide (n - 1 < 0) then "-"%char else "+"%char in
    let exponent := decimal 1 3 (Z.abs (n - 1)) in
    match ds with
    | [] => []
    | [d] => d :: "e"%char :: sign :: exponent
    | d :: rest => d :: "."%char :: rest ++ "e"%char :: sign :: exponent
    end.

(** [Number::toString(x)] in radix 10. *)
Definition to_string (x : float) : string :=
  match Prim2SF x with
  | S754_nan => "NaN"
  | S754_zero _ => "0"
  | S754_infinity false => "Infinity"
  | S754_infinity true => "-Infinity"
  | S754_finite negative m e =>
      let '(s, k, n) := shortest_digits (Z.pos m) e in
      (if negative then "-" else "") +:+ string_of_list_ascii (layout s k n)
  end.

(** The integer closest to [m * 2^e * 10^f], the larger one on a tie. *)
Definition round_scaled (m e : Z) (f : nat) : Z :=
  if bool_decide (0 ≤ e) then m * 2 ^ e * 10 ^ Z.of_nat f
  else (2 * m * 10 ^ Z.of_nat f + 2 ^ (- e)) `div` 2 ^ (1 - e).

(** The digits of [n] laid out with [f] fraction digits. *)
Definition fixed (f : nat) (n : Z) : list ascii :=
  let ds := decimal (S f) (22 + f) n in
  let whole := (length ds - f)%nat in
  match f with
  | O => ds
  | S _ => take whole ds ++ "."%char :: drop whole ds
  end.

(** [x.toFixed(f)] for [f ≤ 100] (line 92 calls it with 4). *)
Definition toFixed (f : nat) (x : float) : string :=
  match Prim2SF x with
  | S754_nan => "NaN"
  | S754_infinity false => "Infinity"
  | S754_infinity true => "-Infinity"
  | S754_zero _ => string_of_list_ascii (fixed f 0)
  | S754_finite negative m e =>
      if below_pow10 (Z.pos m) e 21 then
        (if negative then "-" else "")
          +:+ string_of_list_ascii (fixed f (round_scaled (Z.pos m) e f))
      else to_string x
  end.

(** Reading digits back: the value of a digit character and of a digit
    string.  These two are the yardstick of the round-trip theorems; the
    page itself never parses numbers. *)
Definition digit_value (c : ascii) : Z := Z.of_nat (nat_of_ascii c) - 48.

Definition value_of_digits (l : list ascii) : Z :=
  foldl (λ acc c, 10 * acc + digit_value c) 0 l.

(** The yardsticks of the proofs about the digit search. *)



(** The language's rendering of numbers, as the controller's template
    literal uses it. *)
#[export] Instance number_to_string_impl : NumberToString := to_string.

(** ** Digit strings *)

Lemma digits_of_length k n : length (digits_of k n) = k.
Proof.
  revert n. induction k as [|k IH]; intros n; simpl; [done|].
  rewrite length_app, IH; simpl. lia.
Qed.

Lemma digit_value_char d : 0 ≤ d < 10 → digit_value (digit_char d) = d.
Proof.
  intros Hd. unfold digit_value, digit_char.
  rewrite nat_ascii_embedding by lia. lia.
Qed.

Lemma value_of_digits_snoc l c :
  value_of_digits (l ++ [c]) = 10 * value_of_digits l + digit_value c.
Proof. unfold value_of_digits. by rewrite foldl_snoc. Qed.

Lemma value_of_digits_of k n :
  0 ≤ n → value_of_digits (digits_of k n) = n `mod` 10 ^ Z.of_nat k.
Proof.
  revert n. induction k as [|k IH]; intros n Hn.
  { by rewrite Z.mod_1_r. }
  cbn [digits_of]. rewrite value_of_digits_snoc, IH by (apply Z.div_pos; lia).
  rewrite digit_value_char by (apply Z.mod_pos_bound; lia).
  rewrite Nat2Z.inj_succ, Z.pow_succ_r, Z.rem_mul_r by lia. lia.
Qed.

(** [strip_zeros] by one equation: the head is dropped exactly when it is a
    zero and more than [keep] characters remain. *)
Lemma strip_zeros_cons keep c l :
  strip_zeros keep (c :: l) =
    if bool_decide (c = "0"%char ∧ (keep < S (length l))%nat)
    then strip_zeros keep l else c :: l.
Proof.
  destruct (decide (c = "0"%char)) as [->|Hc].
  - cbn [strip_zeros length].
    destruct (decide (keep < S (length l))%nat).
    + by rewrite !bool_decide_eq_true_2.
    + by rewrite !bool_decide_eq_false_2 by tauto.
  - rewrite bool_decide_eq_false_2 by tauto.
    destruct c as [[] [] [] [] [] [] [] []]; try done.
Qed.

Lemma strip_zeros_length keep l :
  (keep ≤ length l)%nat → (keep ≤ length (strip_zeros keep l))%nat.
Proof.
  induction l as [|c l IH]; [done|]. rewrite strip_zeros_cons.
  case_bool_decide; [|done]. intros _. apply IH. lia.
Qed.

Lemma strip_zeros_suffix keep l : strip_zeros keep l `suffix_of` l.
Proof.
  induction l as [|c l IH]; [done|]. rewrite strip_zeros_cons.
  case_bool_decide; [by apply suffix_cons_r|done].
Qed.

Lemma strip_zeros_value keep l :
  value_of_digits (strip_zeros keep l) = value_of_digits l.
Proof.
  induction l as [|c l IH]; [done|]. rewrite strip_zeros_cons.
  case_bool_decide as Hc; [|done]. destruct Hc as [-> _]. by rewrite IH.
Qed.

Lemma decimal_length keep width n :
  (keep ≤ width)%nat → (keep ≤ length (decimal keep width n) ≤ width)%nat.
Proof.
  intros Hk. unfold decimal. split.
  - apply strip_zeros_length. by rewrite digits_of_length.
  - rewrite <-(digits_of_length width n) at 2.
    apply suffix_length, strip_zeros_suffix.
Qed.

Lemma decimal_value keep width n :
  0 ≤ n < 10 ^ Z.of_nat width → value_of_digits (decimal keep width n) = n.
Proof.
  intros Hn. unfold decimal.
  rewrite strip_zeros_value, value_of_digits_of by lia. by apply Z.mod_small.
Qed.


(** ** Rounding for [toFixed] *)

Lemma below_pow10_spec m e n :
  below_pow10 m e n = true ↔
  m * 2 ^ Z.max e 0 * 10 ^ Z.max (- n) 0 < 10 ^ Z.max n 0 * 2 ^ Z.max (- e) 0.
Proof.
  unfold below_pow10, cmp_dec_bin. rewrite Z.mul_1_l, <-Z.gt_lt_iff.
  unfold Z.gt. by destruct (_ ?= _).
Qed.

Lemma round_scaled_nearest m e f :
  let n := round_scaled m e f in
  let scale := 2 ^ Z.max (- e) 0 in
  let scaled := m * 2 ^ Z.max e 0 * 10 ^ Z.of_nat f in
  (2 * n - 1) * scale ≤ 2 * scaled < (2 * n + 1) * scale.
Proof.
  cbv zeta. unfold round_scaled. case_bool_decide as He.
  - rewrite (Z.max_r (- e) 0), (Z.max_l e 0) by lia.
    rewrite Z.pow_0_r. lia.
  - rewrite (Z.max_l (- e) 0), (Z.max_r e 0) by lia.
    replace (1 - e) with (Z.succ (- e)) by lia. rewrite Z.pow_succ_r by lia.
    assert (0 < 2 ^ (- e)) as Hd by (apply Z.pow_pos_nonneg; lia).
    set (d := 2 ^ (- e)) in *. set (y := 2 * m * 10 ^ Z.of_nat f + d).
    pose proof (Z.div_mod y (2 * d) ltac:(lia)) as Hdm.
    pose proof (Z.mod_pos_bound y (2 * d) ltac:(lia)) as Hmod.
    rewrite Z.pow_0_r, Z.mul_1_r. unfold y in *. lia.
Qed.

Lemma round_scaled_range m e f :
  0 < m → below_pow10 m e 21 = true →
  0 ≤ round_scaled m e f < 10 ^ Z.of_nat (22 + f).
Proof.
  intros Hm Hb%below_pow10_spec. pose proof (round_scaled_nearest m e f) as Hn.
  cbv zeta in Hn. change (Z.max (- 21) 0) with 0 in Hb.
  change (Z.max 21 0) with 21 in Hb. rewrite Z.pow_0_r, Z.mul_1_r in Hb.
  rewrite Nat2Z.inj_add, Z.pow_add_r by lia. change (Z.of_nat 22) with 22.
  assert (0 < 10 ^ Z.of_nat f) as Hf by (apply Z.pow_pos_nonneg; lia).
  assert (0 < 2 ^ Z.max (- e) 0) as Hd by (apply Z.pow_pos_nonneg; lia).
  assert (0 < 2 ^ Z.max e 0) as Hu by (apply Z.pow_pos_nonneg; lia).
  set (n := round_scaled m e f) in *. set (A := 10 ^ Z.of_nat f) in *.
  set (d := 2 ^ Z.max (- e) 0) in *. set (u := 2 ^ Z.max e 0) in *.
  assert (m * u * A < 10 ^ 21 * A * d) as Hlt.
  { rewrite <-(Z.mul_assoc _ A d), (Z.mul_comm A d), Z.mul_assoc.
    by apply Z.mul_lt_mono_pos_r. }
  assert (0 < m * u * A) as Hpos by (repeat apply Z.mul_pos_pos; done).
  assert (1 * d ≤ 10 ^ 21 * A * d) as Hone
    by (apply Z.mul_le_mono_nonneg_r; lia).
  change (10 ^ 22) with (10 * 10 ^ 21). split.
  - apply Z.lt_succ_r, (Z.mul_lt_mono_pos_r d); [done|]. lia.
  - apply (Z.mul_lt_mono_pos_r d); [done|]. lia.
Qed.

Lemma fixed_value f n :
  0 ≤ n < 10 ^ Z.of_nat (22 + S f) →
  ∃ whole frac, fixed (S f) n = whole ++ "."%char :: frac ∧
    length frac = S f ∧ whole ≠ [] ∧ value_of_digits (whole ++ frac) = n.
Proof.
  intros Hn. unfold fixed. set (ds := decimal _ _ _).
  assert (S (S f) ≤ length ds ≤ 22 + S f)%nat as Hlen by (apply decimal_length; lia).
  exists (take (length ds - S f) ds), (drop (length ds - S f) ds).
  split; [done|]. split; [rewrite length_drop; lia|]. split.
  - intros Hnil%(f_equal length). rewrite length_take in Hnil.
    cbn [length] in Hnil. lia.
  - rewrite take_drop. by apply decimal_value.
Qed.

(** C23: [toFixed] shows the decimal closest to the number.  For a finite
    [x] of magnitude [m * 2^e] below [10^21], [x.toFixed(f)] with [f ≥ 1] is
    the sign, at least one integer digit, a point and exactly [f] fraction
    digits; read as an integer [n], these digits satisfy
    [n - 1/2 ≤ m * 2^e * 10^f < n + 1/2]: [n] is the integer nearest to the
    magnitude scaled by [10^f], the larger one when two are equally near. *)
Theorem toFixed_nearest f x negative m e :
  Prim2SF x = S754_finite negative m e → below_pow10 (Z.pos m) e 21 = true →
  ∃ whole frac,
    toFixed (S f) x =
      ((if negative then "-" else "") +:+
       string_of_list_ascii (whole ++ "."%char :: frac))%string ∧
    length frac = S f ∧ whole ≠ [] ∧
    let n := value_of_digits (whole ++ frac) in
    (2 * n - 1) * 2 ^ Z.max (- e) 0
      ≤ 2 * (Z.pos m * 2 ^ Z.max e 0 * 10 ^ Z.of_nat (S f))
      < (2 * n + 1) * 2 ^ Z.max (- e) 0.
Proof.
  intros Hx Hb. unfold toFixed. rewrite Hx, Hb.
  destruct (fixed_value f (round_scaled (Z.pos m) e (S f)))
    as (whole & frac & -> & Hfrac & Hwhole & Hv).
  { by apply round_scaled_range. }
  exists whole, frac. rewrite Hv. repeat split; try done; apply round_scaled_nearest.
Qed.


(** ** The decade of a number *)












(** ** Decimals and binaries at a common scale *)












(** ** The digit search of [to_string] *)













