(* ===== verification/Renderer.v ===== *)
(** * The marker renderer: what [App] returns and what React mounts

    [App] (lines 77-98 of [src/src/App.jsx]) returns a map container with
    one [AutoOpenMarker] element per marker, keyed by the marker's index;
    each holds a [Popup] with the marker's text, a line break, and the
    coordinates printed by [toFixed(4)].  [AutoOpenMarker] (lines 24-37)
    keeps a ref to the Leaflet marker it renders and, in an effect with an
    empty dependency list, opens the marker's popup.

    [view] is the element list; [commit] is React's reconciliation of a
    keyed child list against the mounted components, followed by the effects
    that are due; [page] couples the controller's state with the screen, a
    render of the controller committing the view of the collection.

    React's rules used here: a child whose key matches a mounted component
    of the same type updates that component and keeps its refs; a child with
    a new key mounts a new component; a ref passed to an element is attached
    before the effects of that commit run; an effect with dependency list
    [[]] is due on mount only. *)

From Stdlib Require Import Ascii String.
From S2P Require Import Prelude JsValue Markers Async Controller NumberFormat.

#[local] Set Warnings "-inexact-float".

(** ** Definitions *)

(** A child of a JSX element: an embedded expression, a [<br />], or literal
    text. *)
Inductive child :=
| Expr (v : value)
| Br
| Text (s : string).

(** The children of [<Popup>] for one marker (lines 89-93). *)
Definition Popup (markers : Marker.t) : list child :=
  [Expr (Marker.text markers); Br; Text "坐标：";
   Expr (VString (toFixed 4 (Marker.lat markers))); Text ",";
   Expr (VString (toFixed 4 (Marker.lng markers)))].

(** The element [<AutoOpenMarker key={index} position={[lat, lng]}>] with
    its popup (lines 88-94). *)
Record element := Element {
  key : nat;
  position : float * float;
  children : list child;
}.

(** The keyed children [markers.map((markers, index) => ...)] (lines 87-95). *)
Definition view (markers : list Marker.t) : list element :=
  imap (λ index markers,
          {| key := index; position := Marker.position markers;
             children := Popup markers |}) markers.

(** What [App] returns (lines 77-98): the map container with its settings
    (line 79), the URL template of the tile layer (line 82), the click
    listener with its callback (line 85) and the marker elements
    (lines 87-95).  The attribution text of the tile layer is left out. *)
Record tree := Tree {
  center : list float;
  zoom : Z;
  scrollWheelZoom : bool;
  tiles : string;
  onMapClick : LatLng.t → program unit;
  pins : list element;
}.

Definition App (markers : list Marker.t) : tree :=
  {| center := Marker.initialPosition; zoom := 13; scrollWheelZoom := true;
     tiles := "https://{s}.tile.openstreetmap.org/{z}/{x}/{y}.png";
     onMapClick := addNewMarker;
     pins := view markers |}.

(** A Leaflet marker, named by the order of its creation. *)
Definition handle := nat.

(** A mounted [AutoOpenMarker]: its key, its ref (line 25; [None] is
    [null]) and the props of its last render. *)
Record pin := Pin {
  pin_key : nat;
  markerRef : option handle;
  props : element;
}.

(** The screen: the mounted pins in order, the calls of [openPopup] so far,
    and the number of Leaflet markers created. *)
Record screen := Screen {
  mounted : list pin;
  opened : list handle;
  created : nat;
}.

Definition blank : screen := {| mounted := []; opened := []; created := 0 |}.

(** The dependency list of the effect (line 31). *)
Definition AutoOpenMarker_deps : list value := [].

(** Whether an effect is due: on mount ([previous = None]), and on update
    when its dependencies changed. *)
Definition effect_due (previous : option (list value)) (deps : list value) : bool :=
  match previous with
  | None => true
  | Some old => bool_decide (old ≠ deps)
  end.

(** The body of the effect (lines 28-30): the calls of [openPopup] it
    makes. *)
Definition AutoOpenMarker_effect (markerRef : option handle) : list handle :=
  match markerRef with
  | Some marker => [marker]
  | None => []
  end.

(** Mounting [AutoOpenMarker] (lines 24-37): [useRef(null)] makes the ref,
    and the rendered [<Marker ref={markerRef}>] attaches the new Leaflet
    marker to it during the commit, before any effect runs. *)
Definition mount (marker : handle) (e : element) : pin :=
  {| pin_key := key e; markerRef := Some marker; props := e |}.

(** Updating a mounted [AutoOpenMarker]: the ref is kept, the props are
    those of the new element. *)
Definition update (p : pin) (e : element) : pin :=
  {| pin_key := pin_key p; markerRef := markerRef p; props := e |}.

(** The mounted pin with a given key. *)
Fixpoint find_pin (k : nat) (ps : list pin) : option pin :=
  match ps with
  | [] => None
  | p :: ps => if decide (pin_key p = k) then Some p else find_pin k ps
  end.

(** Reconciling one child against the pins mounted before the commit; the
    accumulator holds the pins placed so far, the [openPopup] calls due, and
    the number of Leaflet markers created. *)
Definition place (old : list pin) (acc : list pin * list handle * nat)
    (e : element) : list pin * list handle * nat :=
  let '(placed, due, next) := acc in
  match find_pin (key e) old with
  | Some p =>
      let p := update p e in
      let calls :=
        if effect_due (Some AutoOpenMarker_deps) AutoOpenMarker_deps
        then AutoOpenMarker_effect (markerRef p) else [] in
      (placed ++ [p], due ++ calls, next)
  | None =>
      let p := mount next e in
      let calls :=
        if effect_due None AutoOpenMarker_deps
        then AutoOpenMarker_effect (markerRef p) else [] in
      (placed ++ [p], due ++ calls, S next)
  end.

(** One commit: the children are reconciled in order, pins whose key is gone
    are unmounted, then the effects run. *)
Definition commit (es : list element) (scr : screen) : screen :=
  let '(placed, due, next) := foldl (place (mounted scr)) ([], [], created scr) es in
  {| mounted := placed; opened := opened scr ++ due; created := next |}.

(** The pin of the marker at [index], mounted when the marker was first
    rendered. *)
Definition pin_of (index : nat) (markers : Marker.t) : pin :=
  {| pin_key := index; markerRef := Some index;
     props := {| key := index; position := Marker.position markers;
                 children := Popup markers |} |}.

(** The screen on which every marker of a collection has its pin, each
    popup having been opened once, in the order of the markers. *)
Definition screen_of (markers : list Marker.t) : screen :=
  {| mounted := imap pin_of markers; opened := seq 0 (length markers);
     created := length markers |}.

(** The page: the controller's state and the screen. *)
Record page := Page {
  app : state;
  scr : screen;
}.

(** Mounting [App]: the first render commits the initial collection. *)
Definition page_init : page :=
  {| app := init; scr := commit (pins (App (markers init))) blank |}.

(** One event of the page: the controller takes its step; a render commits
    what [App] returns for the collection the render committed. *)
Definition page_step (ev : event) (pg : page) : option page :=
  st' ← step ev (app pg);
  Some {| app := st';
          scr := match ev with
                 | Render => commit (pins (App (markers st'))) (scr pg)
                 | _ => scr pg
                 end |}.

Fixpoint page_exec (evs : list event) (pg : page) : option page :=
  match evs with
  | [] => Some pg
  | ev :: evs => page_step ev pg ≫= page_exec evs
  end.

(** The invariant of the page: the controller's state is well formed, the
    screen is the screen of the committed collection, and the collection to
    be committed is at least as long. *)
Definition page_inv (pg : page) : Prop :=
  wf (app pg) ∧ scr pg = screen_of (markers (app pg)) ∧
  length (markers (app pg)) ≤ length (logical (app pg)).

(** ** The view *)

Lemma view_length markers : length (view markers) = length markers.
Proof. apply length_imap. Qed.

Lemma view_lookup markers index m :
  markers !! index = Some m →
  view markers !! index =
    Some {| key := index; position := Marker.position m; children := Popup m |}.
Proof. intros Hm. unfold view. by rewrite list_lookup_imap, Hm. Qed.

Lemma view_snoc markers m :
  view (markers ++ [m]) =
  view markers ++ [{| key := length markers; position := Marker.position m;
                      children := Popup m |}].
Proof. unfold view. rewrite imap_app. simpl. by rewrite Nat.add_0_r. Qed.

Lemma view_keys markers : key <$> view markers = seq 0 (length markers).
Proof.
  induction markers as [|m markers IH] using rev_ind; [done|].
  by rewrite view_snoc, fmap_app, IH, length_app, seq_app.
Qed.

(** ** Reconciliation *)

Lemma find_pin_imap (f : nat → Marker.t → pin) l k off :
  (∀ j m, pin_key (f j m) = off + j) →
  find_pin (off + k) (imap f l) = f k <$> l !! k.
Proof.
  revert f k off. induction l as [|x l IH]; intros f k off Hf; [done|].
  cbn [imap find_pin]. rewrite Hf. destruct k as [|k].
  - by rewrite decide_True.
  - rewrite decide_False by lia. replace (off + S k) with (S off + k) by lia.
    rewrite (IH (f ∘ S) k (S off)); [done|]. intros j m; simpl. rewrite Hf. lia.
Qed.

Lemma find_pin_screen_of markers k :
  find_pin k (mounted (screen_of markers)) = pin_of k <$> markers !! k.
Proof. by apply (find_pin_imap pin_of markers k 0). Qed.

Lemma imap_pin_of_snoc markers m :
  imap pin_of (markers ++ [m]) = imap pin_of markers ++ [pin_of (length markers) m].
Proof. rewrite imap_app. simpl. by rewrite Nat.add_0_r. Qed.

Lemma effect_due_update :
  effect_due (Some AutoOpenMarker_deps) AutoOpenMarker_deps = false.
Proof. done. Qed.

(** Reconciling the view of [new] against the pins of [old]. *)
Lemma place_view old new :
  foldl (place (mounted (screen_of old))) ([], [], length old) (view new) =
  (imap pin_of new, seq (length old) (length new - length old),
   length old `max` length new).
Proof.
  induction new as [|m new IH] using rev_ind.
  { simpl. by rewrite Nat.max_0_r. }
  rewrite view_snoc, foldl_app, IH. cbn [foldl place key].
  rewrite find_pin_screen_of, imap_pin_of_snoc, length_app. cbn [length].
  destruct (old !! length new) as [m'|] eqn:Hold; cbn [fmap option_fmap].
  - apply lookup_lt_Some in Hold.
    rewrite effect_due_update, app_nil_r.
    replace (length new + 1 - length old) with 0 by lia.
    replace (length new - length old) with 0 by lia.
    by rewrite !Nat.max_l by lia.
  - apply lookup_ge_None in Hold. cbn [effect_due mount markerRef AutoOpenMarker_effect].
    rewrite !Nat.max_r by lia.
    replace (length new + 1 - length old) with (S (length new - length old)) by lia.
    rewrite seq_S. repeat f_equal; lia.
Qed.

Lemma commit_screen_of old new :
  length old ≤ length new → commit (view new) (screen_of old) = screen_of new.
Proof.
  intros Hlen. unfold commit.
  change (created (screen_of old)) with (length old).
  rewrite place_view, Nat.max_r by done. unfold screen_of; cbn [opened].
  rewrite <-seq_app.
  by replace (length old + (length new - length old)) with (length new) by lia.
Qed.

Lemma transition_markers st ev c st' :
  transition st ev c st' →
  markers st' = if ev is Render then logical st else markers st.
Proof. by destruct 1. Qed.

Lemma apply_change_length c l :
  length (apply_change c l) = length l + length (inserted c).
Proof.
  rewrite <-(length_fmap Marker.identity), apply_change_identity.
  by rewrite length_app, !length_fmap.
Qed.

Lemma page_inv_init : page_inv page_init.
Proof.
  split; [apply wf_init|]. split; [|done].
  apply (commit_screen_of [] (markers init)). simpl; lia.
Qed.

Lemma page_inv_step ev pg pg' :
  page_inv pg → page_step ev pg = Some pg' → page_inv pg'.
Proof.
  intros (Hwf & Hscr & Hlen) Hstep. unfold page_step in Hstep.
  destruct (step ev (app pg)) as [st'|] eqn:Hst; [|done].
  injection Hstep as <-. unfold page_inv. cbn [app scr].
  destruct (step_transition _ _ _ Hwf Hst) as [c Htr].
  pose proof (transition_markers _ _ _ _ Htr) as Hm.
  pose proof (transition_logical _ _ _ _ Htr) as Hl.
  split; [by eapply wf_step|]. rewrite Hl, apply_change_length.
  destruct ev; rewrite Hm; (split; [|lia]); try done.
  rewrite Hscr. by apply commit_screen_of.
Qed.

Lemma page_inv_exec evs pg pg' :
  page_inv pg → page_exec evs pg = Some pg' → page_inv pg'.
Proof.
  revert pg. induction evs as [|ev evs IH]; simpl; intros pg Hinv.
  { by intros [= <-]. }
  destruct (page_step ev pg) as [pg1|] eqn:Hstep; [|done]. simpl.
  eauto using page_inv_step.
Qed.

(** ** The properties of the renderer *)

(** C16: every pin's popup is opened exactly once, when the pin is first
    rendered: after any sequence of clicks, settled promises and renders
    from the mounting of [App], the mounted pins are those of the committed
    markers, index by index, each with the Leaflet marker created for it,
    and the calls of [openPopup] so far are one per committed marker, in the
    order of the markers, without repetition. *)
Theorem popups_open_once evs pg :
  page_exec evs page_init = Some pg →
  mounted (scr pg) = imap pin_of (markers (app pg)) ∧
  opened (scr pg) = seq 0 (length (markers (app pg))) ∧
  NoDup (opened (scr pg)).
Proof.
  intros (_ & Hscr & _)%(page_inv_exec _ _ _ page_inv_init).
  rewrite Hscr. repeat split. apply NoDup_seq.
Qed.

(** C27: a commit mounts the pins of the markers that are new, in order,
    and opens their popups; when the committed collection had [n] markers
    and the new one is at least as long, the calls of [openPopup] the commit
    adds are those of the markers from index [n] on. *)
Theorem commit_mounts_new old new :
  length old ≤ length new →
  commit (pins (App new)) (screen_of old) = screen_of new ∧
  opened (commit (pins (App new)) (screen_of old)) =
    opened (screen_of old) ++ seq (length old) (length new - length old).
Proof.
  intros Hlen. cbn [App pins]. rewrite commit_screen_of by done.
  split; [done|]. cbn [opened screen_of]. rewrite <-seq_app. f_equal. lia.
Qed.

(** C28: rendering again after labels changed (the collection has the same
    length) opens no popup and creates no Leaflet marker: every pin keeps
    its ref and shows the element of the current collection. *)
Theorem rerender_opens_nothing old new :
  length new = length old →
  opened (commit (pins (App new)) (screen_of old)) = opened (screen_of old) ∧
  markerRef <$> mounted (commit (pins (App new)) (screen_of old)) =
    markerRef <$> mounted (screen_of old) ∧
  props <$> mounted (commit (pins (App new)) (screen_of old)) = view new.
Proof.
  intros Hlen. cbn [App pins]. rewrite commit_screen_of by lia.
  cbn [opened mounted screen_of]. rewrite Hlen. split; [done|].
  split; apply list_eq; intros i; rewrite !list_lookup_fmap, ?list_lookup_imap.
  - destruct (new !! i) eqn:Hn, (old !! i) eqn:Ho; try done.
    + apply lookup_lt_Some in Hn. apply lookup_ge_None in Ho. lia.
    + apply lookup_lt_Some in Ho. apply lookup_ge_None in Hn. lia.
  - unfold view. rewrite list_lookup_imap. by destruct (new !! i).
Qed.

(** C17: the optimistic insert reaches the screen before the network
    answers.  In any state the page has reached, a click followed by a
    render is accepted and leaves, as the last pin on the screen, the pin of
    the new marker, at the clicked coordinate, showing the placeholder text
    and the coordinates; its popup is the last one opened; and the request
    of that click is still outstanding. *)
Theorem click_shows_placeholder evs pg e now :
  page_exec evs page_init = Some pg →
  ∃ pg', page_exec [Click e now; Render] pg = Some pg' ∧
    last (mounted (scr pg')) =
      Some (pin_of (length (logical (app pg))) (Marker.tempMarker now (latlng e))) ∧
    last (opened (scr pg')) = Some (length (logical (app pg))) ∧
    tasks (app pg') =
      tasks (app pg) ++ [AwaitFetch (url (latlng e)) (after_fetch now)].
Proof.
  intros (Hwf & Hscr & Hlen)%(page_inv_exec _ _ _ page_inv_init).
  set (st1 := suspend (AwaitFetch (url (latlng e)) (after_fetch now))
                (issue (url (latlng e))
                   (enqueue (Marker.append (Marker.tempMarker now (latlng e))) (app pg)))).
  exists {| app := render st1; scr := commit (pins (App (markers (render st1)))) (scr pg) |}.
  split; [done|]. cbn [scr app]. rewrite Hscr, markers_render. unfold st1.
  rewrite logical_suspend, logical_issue, logical_enqueue.
  change (pins (App ?l)) with (view l). unfold Marker.append.
  rewrite commit_screen_of by (rewrite length_app; lia).
  cbn [mounted opened screen_of].
  rewrite imap_pin_of_snoc, length_app, Nat.add_1_r, seq_S, !last_snoc. done.
Qed.



(** ** A click, from the map to the screen *)

Lemma page_step_render pg :
  page_step Render pg =
  Some {| app := render (app pg);
          scr := commit (view (logical (app pg))) (scr pg) |}.
Proof. done. Qed.

Lemma page_step_settle ev pg st' :
  step ev (app pg) = Some st' → ev ≠ Render →
  page_step ev pg = Some {| app := st'; scr := scr pg |}.
Proof. intros Hst Hev. unfold page_step. rewrite Hst. by destruct ev. Qed.

Lemma page_exec_app evs1 evs2 pg :
  page_exec (evs1 ++ evs2) pg = page_exec evs1 pg ≫= page_exec evs2.
Proof.
  revert pg. induction evs1 as [|ev evs1 IH]; intros pg; simpl; [done|].
  destruct (page_step ev pg); simpl; auto.
Qed.

Lemma set_address_tempMarker tempId latlng v l :
  Marker.set_address tempId v (l ++ [Marker.tempMarker tempId latlng]) =
  Marker.set_address tempId v l ++
    [Marker.with_text (Marker.tempMarker tempId latlng) v].
Proof.
  rewrite Marker.set_address_app. f_equal. unfold Marker.set_address; simpl.
  by rewrite Marker.has_id_tempMarker, bool_decide_eq_true_2.
Qed.

(** The page after a click and a render, from a state whose screen is that
    of its committed collection. *)
Lemma page_exec_click e now pg :
  page_inv pg →
  page_exec [Click e now; Render] pg =
  Some {| app := render (run now (ClickHandle addNewMarker e) (app pg));
          scr := screen_of (logical (app pg) ++ [Marker.tempMarker now (latlng e)]) |}.
Proof.
  intros (_ & Hscr & Hlen). cbn [page_exec]. rewrite (page_step_settle _ _ _ (step_click _ _ _)) by done.
  cbn [mbind option_bind]. rewrite page_step_render. cbn [mbind option_bind app scr].
  rewrite logical_suspend, logical_issue, logical_enqueue, Hscr.
  unfold Marker.append. by rewrite commit_screen_of by (rewrite length_app; lia).
Qed.

(** C6: a click, end to end.  In any state the page has reached, a click,
    a render, the fulfilment of the click's [fetch], the settling of its
    body and another render are accepted in that order (the new activation
    is the last suspended task at each step) and leave, as the last pin on
    the screen, the pin of the new marker at the clicked coordinate showing
    the text [label_of outcome]: the address, or the failure text.  The
    popup of that pin was opened once, by the first of the two renders, and
    no activation of this click remains suspended. *)
Theorem click_settles_on_screen evs pg e now r outcome n1 n2 :
  page_exec evs page_init = Some pg →
  let i := length (tasks (app pg)) in
  let index := length (logical (app pg)) in
  ∃ pg',
    page_exec [Click e now; Render; FetchSettled i (Fulfilled r) n1;
               JsonSettled i outcome n2; Render] pg = Some pg' ∧
    last (mounted (scr pg')) =
      Some (pin_of index
              (Marker.with_text (Marker.tempMarker now (latlng e)) (label_of outcome))) ∧
    opened (scr pg') = seq 0 (S index) ∧
    tasks (app pg') = tasks (app pg).
Proof.
  intros Hinv%(page_inv_exec _ _ _ page_inv_init). cbv zeta.
  set (t := AwaitFetch (url (latlng e)) (after_fetch now)).
  set (m := Marker.tempMarker now (latlng e)).
  set (st2 := render (run now (ClickHandle addNewMarker e) (app pg))).
  assert (tasks st2 !! length (tasks (app pg)) = Some t) as Hfetch
    by (by apply list_lookup_middle).
  set (st3 := suspend (AwaitJson r (after_json now)) (resume (length (tasks (app pg))) st2)).
  assert (tasks st3 !! length (tasks (app pg)) = Some (AwaitJson r (after_json now)))
    as Hjson by (simpl; rewrite delete_snoc; by apply list_lookup_middle).
  eexists. split.
  - change [Click e now; Render; ?a; ?b; ?c] with ([Click e now; Render] ++ [a; b; c]).
    rewrite page_exec_app, page_exec_click by done. cbn [mbind option_bind page_exec].
    rewrite (page_step_settle _ (Page st2 _) _ (step_fetch_fulfilled _ _ _ r n1 _ Hfetch)) by done.
    cbn [mbind option_bind].
    rewrite (page_step_settle _ (Page st3 _) _ (step_json_settled _ _ _ outcome n2 _ Hjson)) by done.
    cbn [mbind option_bind]. by rewrite page_step_render.
  - cbn [app scr]. rewrite logical_enqueue, reconcile_label, logical_resume.
    unfold st3, st2. rewrite logical_suspend, logical_resume, logical_render.
    change (run now (ClickHandle addNewMarker e) (app pg))
      with (suspend t (issue (url (latlng e)) (enqueue (Marker.append m) (app pg)))).
    rewrite logical_suspend, logical_issue, logical_enqueue. unfold Marker.append, m.
    rewrite commit_screen_of by (by rewrite Marker.set_address_length).
    rewrite set_address_tempMarker. cbn [mounted opened screen_of tasks resume].
    rewrite imap_pin_of_snoc, last_snoc, length_app, !Marker.set_address_length.
    rewrite Nat.add_1_r. split; [done|]. split; [done|].
    simpl. by rewrite !delete_snoc.
Qed.
