(* ===== verification/Scenarios.v ===== *)
(** * The page on concrete event sequences

    Runs of the page model of [Controller], with numbers rendered by
    [NumberFormat], on the scenarios a reader would try first: a click that
    resolves, a click whose request fails, two clicks whose responses arrive
    in the opposite order, a response without [display_name], a response
    with an HTTP error status, and two clicks that read the same clock
    value.  The general theorems of [Controller] are applied here to these
    inputs. *)

From Stdlib Require Import Ascii String.
From stdpp Require Import relations.
From S2P Require Import Prelude JsValue Markers Async Controller Spec NumberFormat Renderer.

#[local] Set Warnings "-inexact-float".

(** ** Definitions *)

(** Clicks at (35.0, 139.0), at (0.0, 0.0) and at (35.6586, 139.7454). *)
Definition click_japan : LeafletMouseEvent := MouseEvent (LatLng.mk 35 139).
Definition click_origin : LeafletMouseEvent := MouseEvent (LatLng.mk 0 0).
Definition click_tower : LeafletMouseEvent :=
  MouseEvent (LatLng.mk 35.6586 139.7454).

(** The body [{"display_name": "Example Address, Japan"}]. *)
Definition body_address : value :=
  VObject [("display_name"%string, VString "Example Address, Japan")].

(** The body [{"error": "Unable to geocode"}], which the service sends with
    status 200 for a coordinate it has no address for. *)
Definition body_error : value :=
  VObject [("error"%string, VString "Unable to geocode")].

(** The marker the page starts with. *)
Definition marker_initial : Marker.t :=
  {| Marker.id := None; Marker.lat := 35.6586; Marker.lng := 139.7454;
     Marker.text := VString Marker.text_initial |}.

(** The page after one click at (35, 139) at time 1000. *)
Definition one_click : state := run 1000 (ClickHandle addNewMarker click_japan) init.

(** The page after a second click, at (0, 0) at time 1001. *)
Definition two_clicks : state :=
  run 1001 (ClickHandle addNewMarker click_origin) one_click.

(** The page after a second click that read the same clock value 1000. *)
Definition two_clicks_same_clock : state :=
  run 1000 (ClickHandle addNewMarker click_origin) one_click.

(** The page after the first response arrived: its body is awaited. *)
Definition body_awaited : state :=
  suspend (AwaitJson (Response 200) (after_json 1000)) (resume 0 one_click).

(** The page after both responses arrived: both bodies are awaited. *)
Definition bodies_awaited : state :=
  suspend (AwaitJson (Response 200) (after_json 1001))
    (resume 0 (suspend (AwaitJson (Response 200) (after_json 1000))
                 (resume 0 two_clicks))).

(** Both requests of [two_clicks] are rejected, the older one first. *)
Definition reject_both : list event :=
  [FetchSettled 0 (Rejected TypeError) 1002;
   FetchSettled 0 (Rejected TypeError) 1003].

(** The page after [reject_both]. *)
Definition both_failed : state :=
  enqueue (Marker.set_failed 1001)
    (resume 0 (enqueue (Marker.set_failed 1000) (resume 0 two_clicks))).

(** A third click, at the initial position, whose request is rejected. *)
Definition third_click : list event :=
  [Click click_tower 1002; FetchSettled 0 (Rejected TypeError) 1003].

(** The page after [reject_both] and then [third_click]. *)
Definition three_failed : state :=
  enqueue (Marker.set_failed 1002)
    (resume 0 (run 1002 (ClickHandle addNewMarker click_tower) both_failed)).

(** The events of a click whose request resolves. *)
Definition success_events : list event :=
  [Click click_japan 1000; Render;
   FetchSettled 0 (Fulfilled (Response 200)) 1001;
   JsonSettled 0 (Fulfilled body_address) 1002; Render].

(** ** End-to-end runs *)

(** A click at (35.0, 139.0) whose request resolves with
    [{"display_name": "Example Address, Japan"}]: one request goes out, for
    [lat=35&lon=139]; the final collection holds the initial marker and the
    new one, at (35, 139), labelled with the address; nothing is pending. *)
Example run_success :
  exec [Click click_japan 1000; Render;
        FetchSettled 0 (Fulfilled (Response 200)) 1001;
        JsonSettled 0 (Fulfilled body_address) 1002; Render] init =
  Some {| markers :=
            [marker_initial;
             {| Marker.id := Some 1000%Z; Marker.lat := 35; Marker.lng := 139;
                Marker.text := VString "Example Address, Japan" |}];
          queue := []; tasks := [];
          requests :=
            ["https://nominatim.openstreetmap.org/reverse?format=json&lat=35&lon=139"%string];
          unhandled := [] |}.
Proof. vm_compute. reflexivity. Qed.

(** A click at (0.0, 0.0) whose request is rejected: the final collection
    holds the new marker at (0, 0) with the failure text; nothing is thrown
    further and nothing is pending. *)
Example run_failure :
  exec [Click click_origin 1000; Render;
        FetchSettled 0 (Rejected TypeError) 1001; Render] init =
  Some {| markers :=
            [marker_initial;
             {| Marker.id := Some 1000%Z; Marker.lat := 0; Marker.lng := 0;
                Marker.text := VString Marker.text_failed |}];
          queue := []; tasks := [];
          requests :=
            ["https://nominatim.openstreetmap.org/reverse?format=json&lat=0&lon=0"%string];
          unhandled := [] |}.
Proof. vm_compute. reflexivity. Qed.

(** Two clicks; the second request resolves first: only the second marker
    is relabelled, the first keeps the placeholder until its own request
    settles. *)
Example run_out_of_order :
  logical <$> exec [Click click_japan 1000; Click click_origin 1001;
                    FetchSettled 1 (Fulfilled (Response 200)) 1002;
                    JsonSettled 1 (Fulfilled body_address) 1003] init =
  Some [marker_initial;
        Marker.tempMarker 1000 (latlng click_japan);
        {| Marker.id := Some 1001%Z; Marker.lat := 0; Marker.lng := 0;
           Marker.text := VString "Example Address, Japan" |}].
Proof. vm_compute. reflexivity. Qed.

(** ** Runs the specification describes differently *)

(** The service answers a coordinate it has no address for with status 200
    and the body [{"error": "Unable to geocode"}]: the marker's text becomes
    [undefined] (an empty popup line), not the failure text. *)
Example run_missing_display_name :
  exec [Click click_japan 1000;
        FetchSettled 0 (Fulfilled (Response 200)) 1001;
        JsonSettled 0 (Fulfilled body_error) 1002; Render] init =
  Some {| markers :=
            [marker_initial;
             {| Marker.id := Some 1000%Z; Marker.lat := 35; Marker.lng := 139;
                Marker.text := VUndefined |}];
          queue := []; tasks := [];
          requests :=
            ["https://nominatim.openstreetmap.org/reverse?format=json&lat=35&lon=139"%string];
          unhandled := [] |}.
Proof. vm_compute. reflexivity. Qed.

(** A response with status 500 whose body is JSON with a [display_name] is
    taken as a success: the status is not looked at. *)
Example run_http_error :
  logical <$> exec [Click click_japan 1000;
                    FetchSettled 0 (Fulfilled (Response 500)) 1001;
                    JsonSettled 0 (Fulfilled body_address) 1002] init =
  Some [marker_initial;
        {| Marker.id := Some 1000%Z; Marker.lat := 35; Marker.lng := 139;
           Marker.text := VString "Example Address, Japan" |}].
Proof. vm_compute. reflexivity. Qed.


(** ** The texts the page builds from numbers *)

(** The request for the coordinate of the initial marker, and the two
    numbers its popup shows. *)
Example url_of_tower :
  url (latlng click_tower) =
  "https://nominatim.openstreetmap.org/reverse?format=json&lat=35.6586&lon=139.7454"%string.
Proof. vm_compute. reflexivity. Qed.

Example toFixed_of_tower :
  toFixed 4 35.6586 = "35.6586"%string ∧ toFixed 4 139.7454 = "139.7454"%string ∧
  toFixed 4 35.65865 = "35.6587"%string ∧ toFixed 4 (-0.00001) = "-0.0000"%string.
Proof. repeat split; vm_compute; reflexivity. Qed.

(** [Number::toString] on numbers of each layout: an integer, a fraction,
    a small fraction, exponential notation in both directions, and the
    seventeen digits of [0.1 + 0.2]. *)
Example to_string_layouts :
  to_string 139 = "139"%string ∧ to_string (-35.5) = "-35.5"%string ∧
  to_string 0.000001 = "0.000001"%string ∧ to_string 1e-7 = "1e-7"%string ∧
  to_string 1e21 = "1e+21"%string ∧ to_string 123456789012345680000 = "123456789012345680000"%string ∧
  to_string (0.1 + 0.2) = "0.30000000000000004"%string.
Proof. repeat split; vm_compute; reflexivity. Qed.

(** ** The theorems of the controller at these inputs *)

Lemma settle_touches_only_own_witness :
  logical (enqueue (Marker.set_failed 1001) (resume 1 two_clicks)) !! 1%nat =
  Some (Marker.tempMarker 1000 (latlng click_japan)).
Proof.
  apply (settle_touches_only_own two_clicks
           (FetchSettled 1 (Rejected TypeError) 1002) 1
           (AwaitFetch (url (latlng click_origin)) (after_fetch 1001)) 1001 _ 1 _);
    [reflexivity | constructor | reflexivity.. | discriminate].
Defined.

Lemma json_settled_relabels_witness :
  ∃ st', step (JsonSettled 0 (Fulfilled body_address) 1002) body_awaited = Some st' ∧
    logical st' !! 1%nat =
      Some (Marker.with_text (Marker.tempMarker 1000 (latlng click_japan))
              (label_of (Fulfilled body_address))) ∧
    tasks st' = delete 0%nat (tasks body_awaited).
Proof.
  apply (json_settled_relabels body_awaited 0 (Response 200) 1000); reflexivity.
Defined.

Lemma fetch_rejected_relabels_witness :
  ∃ st', step (FetchSettled 0 (Rejected TypeError) 1001) one_click = Some st' ∧
    logical st' !! 1%nat =
      Some (Marker.with_text (Marker.tempMarker 1000 (latlng click_japan))
              (VString Marker.text_failed)) ∧
    tasks st' = delete 0%nat (tasks one_click) ∧
    requests st' = requests one_click ∧ unhandled st' = unhandled one_click.
Proof.
  apply (fetch_rejected_relabels one_click 0 (url (latlng click_japan)) 1000);
    reflexivity.
Defined.

Lemma reachable_no_unhandled_witness :
  unhandled two_clicks = [] ∧
  Forall (λ t, ∃ tempId, task_of tempId t) (tasks two_clicks).
Proof.
  apply reachable_no_unhandled.
  by exists [Click click_japan 1000; Click click_origin 1001].
Defined.

Lemma exec_preserves_identity_witness :
  (Marker.identity <$> logical init) `prefix_of`
  (Marker.identity <$> logical two_clicks).
Proof.
  apply (exec_preserves_identity [Click click_japan 1000; Click click_origin 1001]);
    [apply wf_init | reflexivity].
Defined.

Lemma reachable_ids_are_click_times_witness :
  Marker.ids (logical two_clicks) =
    omap click_time [Click click_japan 1000; Click click_origin 1001] ∧
  (NoDup (omap click_time [Click click_japan 1000; Click click_origin 1001]) →
   NoDup (Marker.ids (logical two_clicks))).
Proof. by apply reachable_ids_are_click_times. Defined.

Lemma two_clicks_wf : wf two_clicks.
Proof.
  apply reachable_wf. by exists [Click click_japan 1000; Click click_origin 1001].
Qed.

Lemma settle_terminates_witness :
  (length reject_both + work_left both_failed ≤ work_left two_clicks)%nat.
Proof.
  apply (settle_terminates reject_both two_clicks both_failed);
    [apply two_clicks_wf | repeat constructor; by eexists | reflexivity].
Defined.

Lemma drain_quiesces_witness :
  tasks (drain (work_left two_clicks) (Fulfilled (Response 200))
           (Fulfilled body_address) 1002 two_clicks) = [] ∧
  wf (drain (work_left two_clicks) (Fulfilled (Response 200))
        (Fulfilled body_address) 1002 two_clicks).
Proof. apply drain_quiesces, two_clicks_wf. Defined.

Lemma settle_commute_witness :
  ∃ sa sb,
    exec [JsonSettled 0 (Fulfilled body_address) 1004;
          JsonSettled (1 - 1) (Rejected SyntaxError) 1005] bodies_awaited = Some sa ∧
    exec [JsonSettled 1 (Rejected SyntaxError) 1005;
          JsonSettled 0 (Fulfilled body_address) 1004] bodies_awaited = Some sb ∧
    state_equiv sa sb.
Proof.
  apply (settle_commute bodies_awaited 0 1 (Response 200) (Response 200) 1000 1001);
    [lia | lia | reflexivity..].
Defined.

Lemma exec_requests_witness :
  requests (render (enqueue (Marker.set_address 1000 (VString "Example Address, Japan"))
                      (resume 0 body_awaited))) =
  requests init ++ (success_events ≫= request_of).
Proof.
  apply (exec_requests success_events init); [apply wf_init | reflexivity].
Defined.

Lemma step_refines_rules_witness :
  step (Click click_japan 1000) init = Some one_click ↔
  ∃ c, transition init (Click click_japan 1000) c one_click.
Proof. apply step_refines_rules, wf_init. Defined.

Lemma missing_display_name_is_undefined_witness :
  label_of (Fulfilled body_error) = VUndefined ∧
  label_of (Fulfilled body_error) ≠ VString Marker.text_failed.
Proof.
  apply missing_display_name_is_undefined.
  by intros ?%list_elem_of_singleton.
Defined.

Lemma http_status_ignored_witness :
  ∃ st', exec [FetchSettled 0 (Fulfilled (Response 500)) 1001;
               JsonSettled (length (tasks one_click) - 1) (Fulfilled body_error) 1002]
           one_click = Some st' ∧
    logical st' =
      Marker.set_address 1000 (label_of (Fulfilled body_error)) (logical one_click) ∧
    tasks st' = delete 0%nat (tasks one_click).
Proof.
  apply (http_status_ignored one_click 0 (url (latlng click_japan)) 1000).
  reflexivity.
Defined.

Lemma set_address_unique_witness :
  Marker.set_address 1001 (VString "Example Address, Japan") (logical two_clicks) =
  <[2%nat := Marker.with_text (Marker.tempMarker 1001 (latlng click_origin))
               (VString "Example Address, Japan")]> (logical two_clicks).
Proof.
  apply Marker.set_address_unique;
    [by apply (bool_decide_unpack _) | reflexivity..].
Defined.

Lemma set_address_absent_witness :
  Marker.set_address 999 (VString "Example Address, Japan") (logical two_clicks) =
  logical two_clicks.
Proof. apply Marker.set_address_absent. by apply (bool_decide_unpack _). Defined.

(** ** The contract at these inputs *)

Lemma page_refines_contract_witness :
  ∃ s, rtc Abstract.step Abstract.initial s ∧ refines two_clicks s ∧ Abstract.inv s.
Proof.
  apply (page_refines_contract [Click click_japan 1000; Click click_origin 1001]);
    [by apply (bool_decide_unpack _) | reflexivity].
Defined.

Lemma pending_while_in_flight_witness :
  Marker.text (Marker.tempMarker 1000 (latlng click_japan)) =
  VString Marker.text_pending.
Proof.
  apply (pending_while_in_flight
           [Click click_japan 1000; Click click_origin 1001] two_clicks 1
           (Marker.tempMarker 1000 (latlng click_japan)) 1000
           (AwaitFetch (url (latlng click_japan)) (after_fetch 1000)));
    [by apply (bool_decide_unpack _) | reflexivity.. | left | constructor].
Defined.

Lemma settled_label_is_final_witness :
  logical three_failed !! 1%nat =
  Some (Marker.with_text (Marker.tempMarker 1000 (latlng click_japan))
          (VString Marker.text_failed)).
Proof.
  apply (settled_label_is_final third_click both_failed three_failed 1000);
    [by split; [apply Forall_nil_2|] | apply Forall_nil_2
    | by apply (bool_decide_unpack _) | reflexivity..].
Defined.

(** ** The renderer at these inputs *)


(** A click that resolves, rendered after each step: the pin of the new
    marker is mounted by the first render and its popup opened then; the
    render after the response only changes what the popup shows. *)
Example page_run_success :
  (λ pg, (opened (scr pg), children <$> (props <$> mounted (scr pg)) !! 1%nat))
    <$> page_exec success_events page_init =
  Some ([0; 1]%nat,
        Some [Expr (VString "Example Address, Japan"); Br; Text "坐标：";
              Expr (VString "35.0000"); Text ","; Expr (VString "139.0000")]).
Proof. vm_compute. reflexivity. Qed.

Lemma popups_open_once_witness :
  mounted (scr (default page_init (page_exec success_events page_init))) =
    imap pin_of (markers (app (default page_init (page_exec success_events page_init)))) ∧
  opened (scr (default page_init (page_exec success_events page_init))) =
    seq 0 (length (markers (app (default page_init (page_exec success_events page_init))))) ∧
  NoDup (opened (scr (default page_init (page_exec success_events page_init)))).
Proof. apply (popups_open_once success_events). reflexivity. Defined.

Lemma click_shows_placeholder_witness :
  ∃ pg', page_exec [Click click_japan 1000; Render] page_init = Some pg' ∧
    last (mounted (scr pg')) =
      Some (pin_of (length (logical (app page_init)))
              (Marker.tempMarker 1000 (latlng click_japan))) ∧
    last (opened (scr pg')) = Some (length (logical (app page_init))) ∧
    tasks (app pg') =
      tasks (app page_init) ++
      [AwaitFetch (url (latlng click_japan)) (after_fetch 1000)].
Proof. apply (click_shows_placeholder [] page_init). reflexivity. Defined.


Lemma click_settles_on_screen_witness :
  let i := length (tasks (app page_init)) in
  let index := length (logical (app page_init)) in
  ∃ pg',
    page_exec [Click click_japan 1000; Render;
               FetchSettled i (Fulfilled (Response 200)) 1001;
               JsonSettled i (Fulfilled body_address) 1002; Render] page_init = Some pg' ∧
    last (mounted (scr pg')) =
      Some (pin_of index
              (Marker.with_text (Marker.tempMarker 1000 (latlng click_japan))
                 (label_of (Fulfilled body_address)))) ∧
    opened (scr pg') = seq 0 (S index) ∧
    tasks (app pg') = tasks (app page_init).
Proof.
  apply (click_settles_on_screen [] page_init click_japan 1000 (Response 200)
           (Fulfilled body_address) 1001 1002).
  reflexivity.
Defined.

Lemma commit_mounts_new_witness :
  commit (pins (App (logical two_clicks))) (screen_of Marker.initial_markers) =
    screen_of (logical two_clicks) ∧
  opened (commit (pins (App (logical two_clicks))) (screen_of Marker.initial_markers)) =
    opened (screen_of Marker.initial_markers) ++
    seq (length Marker.initial_markers)
      (length (logical two_clicks) - length Marker.initial_markers).
Proof. apply commit_mounts_new. simpl. lia. Defined.

Lemma rerender_opens_nothing_witness :
  opened (commit (pins (App (Marker.set_failed 1000 (logical two_clicks))))
            (screen_of (logical two_clicks))) =
    opened (screen_of (logical two_clicks)) ∧
  markerRef <$> mounted (commit (pins (App (Marker.set_failed 1000 (logical two_clicks))))
                           (screen_of (logical two_clicks))) =
    markerRef <$> mounted (screen_of (logical two_clicks)) ∧
  props <$> mounted (commit (pins (App (Marker.set_failed 1000 (logical two_clicks))))
                       (screen_of (logical two_clicks))) =
    view (Marker.set_failed 1000 (logical two_clicks)).
Proof. apply rerender_opens_nothing. reflexivity. Defined.

(** ** The theorems of the number formatter at the page's inputs *)

Lemma toFixed_nearest_witness :
  ∃ whole frac,
    toFixed 4 35.6586 =
      ("" +:+ string_of_list_ascii (whole ++ "."%char :: frac))%string ∧
    length frac = 4%nat ∧ whole ≠ [] ∧
    let n := value_of_digits (whole ++ frac) in
    ((2 * n - 1) * 2 ^ Z.max (- -47) 0
      ≤ 2 * (5018501802267299 * 2 ^ Z.max (-47) 0 * 10 ^ Z.of_nat 4)
      < (2 * n + 1) * 2 ^ Z.max (- -47) 0)%Z.
Proof.
  apply (toFixed_nearest 3 35.6586 false 5018501802267299 (-47));
    vm_compute; reflexivity.
Defined.



